(** * The one-shot task engine: paragraph chunker, capability registry,
      completion dispatcher and result aggregator.

    Shallow embedding of
    - [one_shots/text_chunking_one_shot.py]  (module [Chunker]),
    - [one_shots/json_schema_dectorator.py], [one_shots/chat_response.py] and
      [one_shots/tool_use_one_shot.py]       (module [Engine]),
    over a small model of the Python primitives they use (module [Py]). *)

From Stdlib Require Import String Ascii List ZArith Lia Bool Arith Permutation.
From Stdlib Require QArith.
Import ListNotations.

(* ================================================================== *)
(** * Python primitives *)
(* ================================================================== *)

Module Py.

(** Python [str] values are modelled as [string]; a character stands for a
    code point below 256. *)

Definition nl : ascii := "010"%char.
Definition dash : ascii := "-"%char.

(** [str.isspace] on code points below 256: TAB..CR, FS..US, SPACE, NEL, NBSP. *)
Definition is_space (c : ascii) : bool :=
  let n := nat_of_ascii c in
  ((9 <=? n) && (n <=? 13)) || ((28 <=? n) && (n <=? 32))
  || (n =? 133) || (n =? 160).

(** [s.lstrip()] *)
Fixpoint lstrip (s : string) : string :=
  match s with
  | EmptyString => EmptyString
  | String c s' => if is_space c then lstrip s' else s
  end.

(** [s.rstrip()] *)
Fixpoint rstrip (s : string) : string :=
  match s with
  | EmptyString => EmptyString
  | String c s' =>
      match rstrip s' with
      | EmptyString => if is_space c then EmptyString else String c EmptyString
      | r => String c r
      end
  end.

(** [s.strip()] *)
Definition strip (s : string) : string := rstrip (lstrip s).

(** [s.split(sep)] for a one-character separator: never returns [[]]. *)
Fixpoint split (sep : ascii) (s : string) : list string :=
  match s with
  | EmptyString => [EmptyString]
  | String c s' =>
      if Ascii.eqb c sep then EmptyString :: split sep s'
      else match split sep s' with
           | [] => [String c EmptyString]
           | p :: ps => String c p :: ps
           end
  end.

(** [s.split(sep, maxsplit)]: at most [maxsplit] cuts, so at most
    [maxsplit + 1] parts. *)
Fixpoint split_max (sep : ascii) (s : string) (maxsplit : nat) : list string :=
  match s with
  | EmptyString => [EmptyString]
  | String c s' =>
      match maxsplit with
      | O => [s]
      | S m =>
          if Ascii.eqb c sep then EmptyString :: split_max sep s' m
          else match split_max sep s' maxsplit with
               | [] => [String c EmptyString]
               | p :: ps => String c p :: ps
               end
      end
  end.

(** [sep.join(ls)] *)
Fixpoint join (sep : string) (ls : list string) : string :=
  match ls with
  | [] => EmptyString
  | [x] => x
  | x :: xs => (x ++ sep ++ join sep xs)%string
  end.

(** [l[start:]] with Python's treatment of negative and overlong bounds. *)
Definition slice_from {A} (start : Z) (l : list A) : list A :=
  let n := Z.of_nat (length l) in
  let lo := if (start <? 0)%Z then Z.max (n + start) 0 else Z.min start n in
  skipn (Z.to_nat lo) l.

(** The character [sep] does not occur in [s]. *)
Fixpoint lacks (sep : ascii) (s : string) : bool :=
  match s with
  | EmptyString => true
  | String c s' => negb (Ascii.eqb c sep) && lacks sep s'
  end.

(** A string that starts with a non-blank character. *)
Definition starts_solid (s : string) : bool :=
  match s with
  | EmptyString => false
  | String c _ => negb (is_space c)
  end.

(** A string that ends with a non-blank character. *)
Fixpoint ends_solid (s : string) : bool :=
  match s with
  | EmptyString => false
  | String c EmptyString => negb (is_space c)
  | String _ s' => ends_solid s'
  end.

(** Insertion-ordered [dict] with [str] keys. *)
Definition dict (V : Type) : Type := list (string * V).

Fixpoint dict_get {V} (d : dict V) (k : string) : option V :=
  match d with
  | [] => None
  | (k', v) :: d' => if String.eqb k' k then Some v else dict_get d' k
  end.

(** [d[k] = v]: overwrite in place when the key exists, append otherwise. *)
Fixpoint dict_set {V} (d : dict V) (k : string) (v : V) : dict V :=
  match d with
  | [] => [(k, v)]
  | (k', v') :: d' =>
      if String.eqb k' k then (k, v) :: d' else (k', v') :: dict_set d' k v
  end.

Definition dict_keys {V} (d : dict V) : list string := map fst d.

End Py.

(* ================================================================== *)
(** * text_chunking_one_shot.py *)
(* ================================================================== *)

Module Chunker.
Import Py.

Section Chunking.

(** [len(self.encoder.encode(p))]: the tokenizer is an external library. *)
Variable encode_len : string -> nat.
(** [self.chunk_size] *)
Variable chunk_size : Z.

(** [sum(len(self.encoder.encode(p)) for p in temp_paragraphs)] *)
Fixpoint sum_tokens (temp_paragraphs : list string) : Z :=
  match temp_paragraphs with
  | [] => 0
  | p :: ps => Z.of_nat (encode_len p) + sum_tokens ps
  end.

(** ['\n'.join(temp_paragraphs).strip()] *)
Definition render (temp_paragraphs : list string) : string :=
  strip (join (String nl EmptyString) temp_paragraphs).

(** Lines 49-50: the buffer kept after a chunk was emitted. *)
Definition retained (overlap : Z) (temp_paragraphs : list string) : list string :=
  if (overlap <? Z.of_nat (length temp_paragraphs))%Z
  then slice_from (- overlap) temp_paragraphs
  else temp_paragraphs.

(** The [for paragraph in paragraphs] loop, lines 39-55. *)
Fixpoint chunk_loop (overlap : Z) (paragraphs : list string)
         (result : list string) (temp_paragraphs : list string)
  : list string * list string :=
  match paragraphs with
  | [] => (result, temp_paragraphs)
  | paragraph :: rest =>
      let tokens := Z.of_nat (encode_len paragraph) in
      if (chunk_size <? tokens + sum_tokens temp_paragraphs)%Z
      then chunk_loop overlap rest
                      (result ++ [render temp_paragraphs])
                      (retained overlap temp_paragraphs ++ [paragraph])
      else chunk_loop overlap rest result (temp_paragraphs ++ [paragraph])
  end.

Definition chunk_paragraphs (text : string) (overlap : Z) : list string :=
  let '(result, temp_paragraphs) := chunk_loop overlap (split nl text) [] [] in
  match temp_paragraphs with
  | [] => result
  | _ => result ++ [render temp_paragraphs]
  end.

(** The same loop, recording the paragraph buffer behind every emitted
    chunk instead of its rendering. *)
Fixpoint buffer_loop (overlap : Z) (paragraphs : list string)
         (emitted : list (list string)) (temp_paragraphs : list string)
  : list (list string) * list string :=
  match paragraphs with
  | [] => (emitted, temp_paragraphs)
  | paragraph :: rest =>
      let tokens := Z.of_nat (encode_len paragraph) in
      if (chunk_size <? tokens + sum_tokens temp_paragraphs)%Z
      then buffer_loop overlap rest
                       (emitted ++ [temp_paragraphs])
                       (retained overlap temp_paragraphs ++ [paragraph])
      else buffer_loop overlap rest emitted (temp_paragraphs ++ [paragraph])
  end.

Definition chunk_buffers (text : string) (overlap : Z) : list (list string) :=
  let '(emitted, temp_paragraphs) := buffer_loop overlap (split nl text) [] [] in
  match temp_paragraphs with
  | [] => emitted
  | _ => emitted ++ [temp_paragraphs]
  end.

End Chunking.

(** Undoing the overlap, as the round-trip property words it: from every
    chunk after the first, drop its first [min k (size of the previous
    chunk)] paragraphs, then concatenate. *)
Fixpoint drop_overlap (k : Z) (prev : list string) (bs : list (list string))
  : list string :=
  match bs with
  | [] => []
  | b :: bs' =>
      skipn (Z.to_nat (Z.min k (Z.of_nat (length prev)))) b ++ drop_overlap k b bs'
  end.

Definition rejoin_buffers (k : Z) (bs : list (list string)) : list string :=
  drop_overlap k [] bs.

Definition rejoin (k : Z) (chunks : list string) : list string :=
  rejoin_buffers k (map (split nl) chunks).

(** A paragraph that trimming leaves alone: non-empty, no blank at either end. *)
Definition tidy (p : string) : Prop :=
  starts_solid p = true /\ ends_solid p = true.

(** A buffer whose rendering splits back into the buffer. *)
Definition faithful (b : list string) : Prop :=
  b <> [] /\ Forall tidy b /\ Forall (fun p => lacks nl p = true) b.

(** A tokenizer used for concrete runs: one token per character. *)
Definition char_tokens (s : string) : nat := String.length s.

Definition lines (ps : list string) : string := join (String nl EmptyString) ps.

End Chunker.

(* ================================================================== *)
(** * chat_response.py, json_schema_dectorator.py, tool_use_one_shot.py *)
(* ================================================================== *)

Module Engine.
Import Py.
Local Open Scope string_scope.
Local Open Scope list_scope.

Definition Q := QArith_base.Q.

(** ** chat_response.py *)

Record ChatResponse := mkChatResponse { text : string; token_count : Z }.

(** ** Exceptions and results *)

(** What can be raised, by the classes the code tells apart.
    [InvalidRequestError] is a subclass of [openai.error.OpenAIError];
    [OpenAIError] stands for every other subclass of it (rate limit,
    timeout, API and connection errors).  [CancelledError] is
    [asyncio.CancelledError], raised in a task that is cancelled: from
    Python 3.8 on it derives from [BaseException] and is not an
    [Exception]; every other class here is. *)
Inductive exn : Type :=
| InvalidRequestError (msg : string)
| OpenAIError (msg : string)
| ValueError (msg : string)
| KeyError (key : string)
| IndexError (msg : string)
| AttributeError (attr : string)
| TypeError (msg : string)
| JSONDecodeError (msg : string)
| RuntimeError (msg : string)
| CancelledError (msg : string).

(** [isinstance(e, Exception)] *)
Definition is_exception (e : exn) : bool :=
  match e with CancelledError _ => false | _ => true end.

(** [isinstance(e, openai.error.InvalidRequestError)] *)
Definition is_invalid_request (e : exn) : bool :=
  match e with InvalidRequestError _ => true | _ => false end.

(** [isinstance(e, openai.error.OpenAIError)] *)
Definition is_openai_error (e : exn) : bool :=
  match e with InvalidRequestError _ | OpenAIError _ => true | _ => false end.

Inductive pyres (A : Type) : Type :=
| Return (a : A)
| Raise (e : exn).
Arguments Return {A} a.
Arguments Raise {A} e.

Definition bind {A B} (m : pyres A) (k : A -> pyres B) : pyres B :=
  match m with
  | Return a => k a
  | Raise e => Raise e
  end.

Declare Scope py_scope.
Delimit Scope py_scope with py.
Notation "x <- m ;; k" := (bind m (fun x => k))
  (at level 61, m at next level, right associativity) : py_scope.
Notation "' pat <- m ;; k" := (bind m (fun x => match x with pat => k end))
  (at level 61, pat pattern, m at next level, right associativity) : py_scope.

(** ** JSON values, as [json.loads] returns them *)

#[warnings="-register-all"]
Inductive json : Type :=
| JNull
| JBool (b : bool)
| JInt (n : Z)
| JStr (s : string)
| JArr (items : list json)
| JObj (fields : list (string * json)).

(** ** json_schema_dectorator.py *)

(** One entry of [params]: the keys ['type'], ['description'], ['required']. *)
Record param_info := mkParamInfo {
  pi_type : option string;
  pi_description : option string;
  pi_required : option bool
}.

Record property := mkProperty { p_type : string; p_description : string }.

(** The schema dict: ['name'], ['description'], ['parameters']['properties']
    and, when some parameter is required, ['required']. *)
Record schema := mkSchema {
  s_name : string;
  s_description : string;
  s_properties : dict property;
  s_required : option (list string)
}.

(** A Python callable: its [__name__]; whether what a call returns can be
    awaited, which holds of an [async def] and of a [def] that returns a
    coroutine or a future, and fails of a [def] that returns a plain
    value; what calling it with keyword arguments and awaiting the result
    yields; and the [schema] attribute if any.  A callable is taken by
    what it returns or raises: what it may do to the store is left out. *)
Record pyfunction := mkFunction {
  fn_name : string;
  fn_async : bool;
  fn_body : list (string * json) -> pyres string;
  fn_schema : option schema
}.

Definition get_or {A} (o : option A) (default : A) : A :=
  match o with Some a => a | None => default end.

(** The [for param, info in params.items()] loop. *)
Fixpoint schema_params (params : dict param_info)
         (properties : dict property) (required : list string)
  : dict property * list string :=
  match params with
  | [] => (properties, required)
  | (param, info) :: rest =>
      let required' :=
        if get_or (pi_required info) false then required ++ [param] else required in
      schema_params rest
        (dict_set properties param
           (mkProperty (get_or (pi_type info) "string")
                       (get_or (pi_description info) "")))
        required'
  end.

(** [json_schema(description, params)(func)] *)
Definition json_schema (description : string) (params : dict param_info)
           (func : pyfunction) : pyfunction :=
  let '(properties, required) := schema_params params [] [] in
  let schema :=
    mkSchema (fn_name func) description properties
             (match required with [] => None | _ => Some required end) in
  mkFunction (fn_name func) (fn_async func) (fn_body func) (Some schema).

(** ** The object store *)

Definition oref := nat.   (* reference to an object *)
Definition dref := nat.   (* reference to a dict *)

(** The attributes [__init__] assigns. *)
Record engine := mkEngine {
  model_name : string;
  temperature : Q;
  max_delay : Z;
  concurrency_limit : Z;
  tool_chest : dref;
  prompt : option string;
  schemas : option (list schema)
}.

(** An object carries its bound methods, attribute name first, in the
    order [inspect.getmembers(_, predicate=inspect.ismethod)] lists them;
    an engine has the attributes of [__init__] besides. *)
Inductive object : Type :=
| Tool (methods : dict pyfunction)
| EngineObj (e : engine) (methods : dict pyfunction).

(** What [getattr] finds on an object apart from its bound methods: a
    callable that [inspect.ismethod] does not count (a static method, a
    builtin such as [__repr__], a class such as [__class__]), or a value
    that cannot be called. *)
Inductive attribute : Type :=
| Callable (f : pyfunction)
| Plain.

(** The store: the dicts and the objects by reference, and for each object
    the attributes that are not bound methods. *)
Record heap := mkHeap {
  dicts : list (dict oref);
  objects : list object;
  others : oref -> dict attribute
}.

Fixpoint list_set {A} (l : list A) (i : nat) (v : A) : list A :=
  match l, i with
  | [], _ => []
  | _ :: l', O => v :: l'
  | a :: l', S i' => a :: list_set l' i' v
  end.

Definition get_dict (h : heap) (d : dref) : option (dict oref) :=
  nth_error (dicts h) d.

Definition get_object (h : heap) (o : oref) : option object :=
  nth_error (objects h) o.

Definition set_dict (h : heap) (d : dref) (v : dict oref) : heap :=
  mkHeap (list_set (dicts h) d v) (objects h) (others h).

Definition set_object (h : heap) (o : oref) (v : object) : heap :=
  mkHeap (dicts h) (list_set (objects h) o v) (others h).

Definition alloc_dict (h : heap) (v : dict oref) : heap * dref :=
  (mkHeap (dicts h ++ [v]) (objects h) (others h), length (dicts h)).

Definition alloc_object (h : heap) (v : object) : heap * oref :=
  (mkHeap (dicts h) (objects h ++ [v]) (others h), length (objects h)).

Definition members (h : heap) (o : oref) : dict pyfunction :=
  match get_object h o with
  | Some (Tool methods) => methods
  | Some (EngineObj _ methods) => methods
  | None => []
  end.

(** The names [__init__] binds on the instance: none of them is callable. *)
Definition engine_fields : list string :=
  ["model_name"; "temperature"; "max_delay"; "concurrency_limit";
   "semaphore"; "tool_chest"; "prompt"; "schemas"].

(** [getattr(obj, name)]: a bound method, a field of an engine, or one of
    the object's other attributes; [None] when there is no such attribute. *)
Definition getattr (h : heap) (o : oref) (name : string) : option attribute :=
  match dict_get (members h o) name with
  | Some f => Some (Callable f)
  | None =>
      match get_object h o with
      | Some (EngineObj _ _) =>
          if existsb (String.eqb name) engine_fields then Some Plain
          else dict_get (others h o) name
      | _ => dict_get (others h o) name
      end
  end.

Definition get_engine (h : heap) (self : oref) : pyres (engine * dict pyfunction) :=
  match get_object h self with
  | Some (EngineObj e methods) => Return (e, methods)
  | _ => Raise (AttributeError "tool_chest")
  end.

(** ** ToolUseOneShot.__init__ *)

Record init_kwargs := mkInitKwargs {
  kw_model_name : option string;
  kw_temperature : option Q;
  kw_max_delay : option Z;
  kw_concurrency_limit : option Z;
  kw_tools : option dref;
  kw_prompt : option string
}.

(** Constructing a [ToolUseOneShot] from keyword arguments, for a class
    whose bound methods are [methods]: [__init__] on a freshly allocated
    [self].  [asyncio.Semaphore] rejects a negative value; the default
    [tools] is a new empty dict. *)
Definition init (methods : dict pyfunction) (kw : init_kwargs) (h : heap)
  : pyres (oref * heap) :=
  let limit := get_or (kw_concurrency_limit kw) 3%Z in
  if (limit <? 0)%Z then Raise (ValueError "Semaphore initial value must be >= 0")
  else
    let '(h1, chest) :=
      match kw_tools kw with
      | Some d => (h, d)
      | None => alloc_dict h []
      end in
    let e := mkEngine (get_or (kw_model_name kw) "gpt-3.5-turbo-16k")
                      (get_or (kw_temperature kw) (QArith_base.Qmake 1 2))
                      (get_or (kw_max_delay kw) 10%Z)
                      limit chest (kw_prompt kw) None in
    let '(h2, self) := alloc_object h1 (EngineObj e methods) in
    match get_dict h2 chest with
    | Some d => Return (self, set_dict h2 chest (dict_set d "self" self))
    | None => Raise (TypeError "object does not support item assignment")
    end.

(** ** __functions *)

(** The schemas of one owner, renamed [owner-name]. *)
Fixpoint owner_schemas (src_name : string) (methods : dict pyfunction) : list schema :=
  match methods with
  | [] => []
  | (_, method) :: rest =>
      match fn_schema method with
      | Some sc =>
          mkSchema (src_name ++ String dash (s_name sc)) (s_description sc)
                   (s_properties sc) (s_required sc)
          :: owner_schemas src_name rest
      | None => owner_schemas src_name rest
      end
  end.

(** The [for src_name in self.tool_chest] loop. *)
Fixpoint collect_schemas (h : heap) (chest : dict oref) (keys : list string) : list schema :=
  match keys with
  | [] => []
  | src_name :: rest =>
      match dict_get chest src_name with
      | Some o => owner_schemas src_name (members h o) ++ collect_schemas h chest rest
      | None => collect_schemas h chest rest
      end
  end.

Definition functions (self : oref) (h : heap) : pyres (list schema * heap) :=
  ('(e, methods) <- get_engine h self ;;
   match schemas e with
   | Some cached => Return (cached, h)
   | None =>
       match get_dict h (tool_chest e) with
       | None => Raise (TypeError "tool_chest is not iterable")
       | Some chest =>
           let found := collect_schemas h chest (dict_keys chest) in
           let e' := mkEngine (model_name e) (temperature e) (max_delay e)
                              (concurrency_limit e) (tool_chest e) (prompt e)
                              (Some found) in
           Return (found, set_object h self (EngineObj e' methods))
       end
   end)%py.

(** [tool_chest['self']] is the engine itself. *)
Definition registered (self : oref) (h : heap) : Prop :=
  exists e methods chest,
    get_object h self = Some (EngineObj e methods) /\
    get_dict h (tool_chest e) = Some chest /\
    dict_get chest "self" = Some self.

(** ** __call_function *)

(** One call of a capability: who owns it, its name, its keyword arguments. *)
Record invocation := mkInvocation {
  inv_owner : string;
  inv_name : string;
  inv_kwargs : list (string * json)
}.

(** [await function_to_call(...)] with the arguments unpacked as keywords:
    the call comes first, so a callable whose value cannot be awaited has
    run when [await] raises [TypeError]. *)
Definition await_call (f : pyfunction) (kwargs : list (string * json)) : pyres string :=
  match fn_body f kwargs with
  | Raise e => Raise e
  | Return v =>
      if fn_async f then Return v
      else Raise (TypeError "object can't be used in 'await' expression")
  end.

(** Returns the calls made together with the result. *)
Definition call_function (self : oref) (h : heap)
           (function_id : string) (function_args : json)
  : list invocation * pyres string :=
  match split_max dash function_id 2 with
  | [toolbelt; function_name] =>
      match get_engine h self with
      | Raise e => ([], Raise e)
      | Return (e, _) =>
          match get_dict h (tool_chest e) with
          | None => ([], Raise (TypeError "tool_chest is not subscriptable"))
          | Some chest =>
              match dict_get chest toolbelt with
              | None => ([], Raise (KeyError toolbelt))
              | Some src_obj =>
                  match getattr h src_obj function_name with
                  | None => ([], Raise (AttributeError function_name))
                  | Some function_to_call =>
                      match function_args with
                      | JObj kwargs =>
                          match function_to_call with
                          | Callable f =>
                              ([mkInvocation toolbelt function_name kwargs],
                               await_call f kwargs)
                          | Plain => ([], Raise (TypeError "object is not callable"))
                          end
                      | _ => ([], Raise (TypeError "argument after ** must be a mapping"))
                      end
                  end
              end
          end
      end
  | _ => ([], Raise (ValueError "wrong number of values to unpack"))
  end.

(** ** Messages, requests and the endpoint *)

Record function_call := mkFunctionCall { fc_name : string; fc_arguments : string }.

(** [response["choices"][i]["message"]] *)
Record response_message := mkResponseMessage {
  rm_content : option string;
  rm_function_call : option function_call
}.

Record response := mkResponse {
  choices : list response_message;
  completion_tokens : Z
}.

Inductive message : Type :=
| RoleMessage (role content : string)
| ResponseMessage (m : response_message)
| FunctionMessage (name content : string).

(** [opts] *)
Record request := mkRequest {
  rq_model : string;
  rq_temperature : Q;
  rq_messages : list message;
  rq_functions : option (list schema)
}.

(** What one [await openai.ChatCompletion.acreate] does. *)
Inductive endpoint_event : Type :=
| Responds (r : response)
| Fails (e : exn).

(** [__construct_message_array] *)
Definition construct_message_array (additional_messages : option (list message))
           (user_message : option string) (sys_prompt : string)
  : pyres (list message) :=
  match user_message, additional_messages with
  | None, None =>
      Raise (ValueError "You must provide a user_message, message, or additional_messages")
  | None, Some additional => Return (RoleMessage "system" sys_prompt :: additional)
  | Some user, None =>
      Return [RoleMessage "system" sys_prompt; RoleMessage "user" user]
  | Some user, Some additional =>
      Return (RoleMessage "system" sys_prompt :: additional ++ [RoleMessage "user" user])
  end.

(** ** _chat_one_shot *)

(** The variables of the retry loop, with a record of what it did. *)
Record loop_state := mkLoop {
  messages : list message;
  delay : Z;
  slept : list Z;                (* arguments of [asyncio.sleep], in order *)
  sent : list request;           (* requests passed to the endpoint, in order *)
  invoked : list invocation      (* capabilities called, in order *)
}.

Definition initial_state (messages : list message) : loop_state :=
  mkLoop messages 1 [] [] [].

Inductive outcome : Type :=
| Returned (r : ChatResponse)
| Raised (e : exn)
| Awaiting.        (* still inside [while True], waiting for the endpoint *)

Section Dispatch.

(** [json.loads] *)
Variable json_loads : string -> pyres json.

Variable self : oref.
Variable h : heap.
Variable opts_model : string.
Variable opts_temperature : Q.
Variable opts_functions : option (list schema).
(** [self.max_delay] *)
Variable limit : Z.

(** [await self.__exponential_backoff(delay)] followed by [delay *= 2]. *)
Definition backoff (st : loop_state) : loop_state :=
  mkLoop (messages st) (delay st * 2)
         (slept st ++ [Z.min (2 * delay st) limit]) (sent st) (invoked st).

(** The call of the endpoint: [opts] holds the [messages] list itself, so
    every request carries the conversation as it is then. *)
Definition send (st : loop_state) : loop_state :=
  mkLoop (messages st) (delay st) (slept st)
         (sent st ++ [mkRequest opts_model opts_temperature (messages st) opts_functions])
         (invoked st).

(** The state after [n] rounds of failing, sleeping and doubling. *)
Fixpoint backed_off (n : nat) (st : loop_state) : loop_state :=
  match n with
  | O => st
  | S n' => backed_off n' (backoff (send st))
  end.

(** The body of [try]: [None] stands for falling through to the next
    iteration after a tool call. *)
Definition attempt (ev : endpoint_event) (st : loop_state)
  : pyres (option ChatResponse) * loop_state :=
  match ev with
  | Fails e => (Raise e, st)
  | Responds response =>
      match choices response with
      | [] => (Raise (IndexError "list index out of range"), st)
      | response_message :: _ =>
          match rm_function_call response_message with
          | Some fc =>
              match json_loads (fc_arguments fc) with
              | Raise e => (Raise e, st)
              | Return function_args =>
                  let '(calls, result) := call_function self h (fc_name fc) function_args in
                  let st' := mkLoop (messages st) (delay st) (slept st) (sent st)
                                    (invoked st ++ calls) in
                  match result with
                  | Raise e => (Raise e, st')
                  | Return function_response =>
                      (Return None,
                       mkLoop (messages st
                               ++ [ResponseMessage response_message;
                                   FunctionMessage (fc_name fc) function_response])
                              (delay st) (slept st) (sent st) (invoked st'))
                  end
              end
          | None =>
              match rm_content response_message with
              | None => (Raise (AttributeError "strip"), st)
              | Some content =>
                  (Return (Some (mkChatResponse (strip content) (completion_tokens response))),
                   st)
              end
          end
      end
  end.

(** [while True: try: ... except ...], one endpoint event per iteration.
    The last clause re-raises an [Exception]; what no clause catches
    leaves the loop the same way. *)
Fixpoint chat_loop (script : list endpoint_event) (st : loop_state)
  : outcome * loop_state :=
  match script with
  | [] => (Awaiting, st)
  | ev :: rest =>
      match attempt ev (send st) with
      | (Return (Some r), st') => (Returned r, st')
      | (Return None, st') => chat_loop rest st'
      | (Raise e, st') =>
          if is_invalid_request e then (Raised e, st')
          else if is_openai_error e then chat_loop rest (backoff st')
          else (Raised e, st')
      end
  end.

(** What lines 200-203 append for one event: the response message, the
    name of the function and what the capability returned, when the event
    is a tool call whose arguments decode and whose capability returns. *)
Definition tool_round (ev : endpoint_event)
  : option (response_message * string * string) :=
  match ev with
  | Fails _ => None
  | Responds response =>
      match choices response with
      | [] => None
      | response_message :: _ =>
          match rm_function_call response_message with
          | None => None
          | Some fc =>
              match json_loads (fc_arguments fc) with
              | Raise _ => None
              | Return function_args =>
                  match snd (call_function self h (fc_name fc) function_args) with
                  | Raise _ => None
                  | Return function_response =>
                      Some (response_message, fc_name fc, function_response)
                  end
              end
          end
      end
  end.

Definition tool_rounds (events : list endpoint_event)
  : list (response_message * string * string) :=
  flat_map (fun ev => match tool_round ev with Some r => [r] | None => [] end) events.

(** The two messages of one round. *)
Definition round_messages (r : response_message * string * string) : list message :=
  let '(response_message, name, function_response) := r in
  [ResponseMessage response_message; FunctionMessage name function_response].

End Dispatch.

(** The delays as the backoff property words them: the [k]-th sleep,
    counting from 1, lasts [min (2^(k-1)) max_delay] seconds. *)
Definition stated_delays (limit : Z) (n : nat) : list Z :=
  map (fun k => Z.min (2 ^ (Z.of_nat k - 1)) limit) (seq 1 n).

Record chat_kwargs := mkChatKwargs {
  ck_temperature : option Q;
  ck_model_name : option string;
  ck_prompt : option string;
  ck_additional_messages : option (list message);
  ck_user_message : option string;
  ck_messages : option (list message)
}.

Definition user_message_only (user_message : string) : chat_kwargs :=
  mkChatKwargs None None None None (Some user_message) None.

Section Running.

Variable json_loads : string -> pyres json.

(** Lines 175-192: everything before the loop. *)
Definition prepare (self : oref) (kw : chat_kwargs) (h : heap)
  : pyres (engine * list message * option (list schema) * heap) :=
  ('(e, _) <- get_engine h self ;;
   messages <-
     match ck_messages kw with
     | Some messages => Return messages
     | None =>
         match (match ck_prompt kw with Some p => Some p | None => prompt e end) with
         | None =>
             Raise (ValueError "You must provide a user_message, message, or additional_messages")
         | Some sys_prompt =>
             construct_message_array (ck_additional_messages kw) (ck_user_message kw)
                                     sys_prompt
         end
     end ;;
   '(found, h') <- functions self h ;;
   Return (e, messages, match found with [] => None | _ => Some found end, h'))%py.

Definition chat_one_shot (self : oref) (kw : chat_kwargs)
           (script : list endpoint_event) (h : heap)
  : outcome * loop_state * heap :=
  match prepare self kw h with
  | Raise e => (Raised e, initial_state [], h)
  | Return (e, messages, opts_functions, h') =>
      (chat_loop json_loads self h'
                 (get_or (ck_model_name kw) (model_name e))
                 (get_or (ck_temperature kw) (temperature e))
                 opts_functions (max_delay e)
                 script (initial_state messages),
       h')
  end.

(** ** arun and await_and_combine_multiple_results *)

Inductive input_item : Type :=
| Text (s : string)
| Prior (r : ChatResponse).

Definition input_text (x : input_item) : string :=
  match x with
  | Text s => s
  | Prior r => text r
  end.

(** What [asyncio.gather(..., return_exceptions=True)] records for a task:
    the value it returned or what it raised, the [CancelledError] of a
    cancelled task included. *)
Inductive settled : Type :=
| Success (r : ChatResponse)
| Failure (e : exn).

Definition settle (o : outcome) : option settled :=
  match o with
  | Returned r => Some (Success r)
  | Raised e => Some (Failure e)
  | Awaiting => None
  end.

(** The coroutines of [tasks], each with the endpoint's answers to its own
    requests.  They start in list order and touch the store only before
    their first suspension. *)
Fixpoint run_tasks (self : oref) (inputs : list (input_item * list endpoint_event))
         (h : heap) : list (option settled) * heap :=
  match inputs with
  | [] => ([], h)
  | (x, script) :: rest =>
      let '(o, _, h1) := chat_one_shot self (user_message_only (input_text x)) script h in
      let '(os, h2) := run_tasks self rest h1 in
      (settle o :: os, h2)
  end.

(** The store in which the [i]-th coroutine starts. *)
Definition store_before (self : oref) (inputs : list (input_item * list endpoint_event))
           (i : nat) (h : heap) : heap :=
  snd (run_tasks self (firstn i inputs) h).

(** [asyncio.gather]: task [i] stores its result in slot [i] when it
    settles; [order] is the order in which the tasks get to finish. *)
Definition finish (tasks : list (option settled)) (slots : list (option settled))
           (i : nat) : list (option settled) :=
  match nth_error tasks i with
  | Some (Some r) => list_set slots i (Some r)
  | _ => slots
  end.

Fixpoint all_settled (slots : list (option settled)) : option (list settled) :=
  match slots with
  | [] => Some []
  | None :: _ => None
  | Some r :: rest =>
      match all_settled rest with
      | Some rs => Some (r :: rs)
      | None => None
      end
  end.

(** A slot is empty or holds its task's result. *)
Definition partial (tasks slots : list (option settled)) : Prop :=
  length slots = length tasks /\
  forall i r, nth_error slots i = Some (Some r) -> nth_error tasks i = Some (Some r).

(** [None]: [gather] is still waiting. *)
Definition gather (tasks : list (option settled)) (order : list nat)
  : option (list settled) :=
  all_settled (fold_left (finish tasks) order (repeat None (length tasks))).

(** [arun] on a list. *)
Definition arun_list (self : oref) (inputs : list (input_item * list endpoint_event))
           (order : list nat) (h : heap) : option (list settled) * heap :=
  let '(tasks, h') := run_tasks self inputs h in
  (gather tasks order, h').

(** [arun] on a single string or [ChatResponse]. *)
Definition arun_one (self : oref) (x : input_item) (script : list endpoint_event)
           (h : heap) : outcome * loop_state * heap :=
  chat_one_shot self (user_message_only (input_text x)) script h.

End Running.

(** The [for index, result in enumerate(results)] loop.  The test is
    [isinstance(result, Exception)]: a result that fails it goes to the
    [else] branch, where reading [result.text] from anything but a
    [ChatResponse] raises [AttributeError]. *)
Fixpoint combine_loop (results : list settled) (text_chunks : list string)
         (token_count : Z) : pyres (list string * Z) :=
  match results with
  | [] => Return (text_chunks, token_count)
  | Failure e :: rest =>
      if is_exception e then combine_loop rest text_chunks token_count
      else Raise (AttributeError "text")
  | Success result :: rest =>
      combine_loop rest (text_chunks ++ [text result])
                   (token_count + Engine.token_count result)
  end.

(** The part of [await_and_combine_multiple_results] after [gather]. *)
Definition combine (results : list settled) : pyres ChatResponse :=
  ('(text_chunks, token_count) <- combine_loop results [] 0%Z ;;
   Return (mkChatResponse (join (String nl EmptyString) text_chunks) token_count))%py.

(** Every failure among [results] is an instance of [Exception]. *)
Definition failures_are_exceptions (results : list settled) : Prop :=
  Forall (fun result => match result with
                        | Failure e => is_exception e = true
                        | Success _ => True
                        end) results.


(** The successes of a settled sequence, in order. *)
Fixpoint successes (results : list settled) : list ChatResponse :=
  match results with
  | [] => []
  | Success r :: rest => r :: successes rest
  | Failure _ :: rest => successes rest
  end.


End Engine.

(* ================================================================== *)
(** * Concrete inputs used in the examples *)
(* ================================================================== *)

Module Samples.
Import Py Engine.
Local Open Scope string_scope.
Local Open Scope list_scope.

(** A stand-in for [json.loads] that only decodes the empty object. *)
Definition loads_empty_object (s : string) : pyres json :=
  if String.eqb s "{}" then Return (JObj [])
  else Raise (JSONDecodeError "Expecting value").

(** An [async def lookup(self)] decorated with [json_schema]. *)
Definition lookup : pyfunction :=
  json_schema "Look a fact up"
              [("topic", mkParamInfo (Some "string") None (Some true))]
              (mkFunction "lookup" true (fun _ => Return "forty-two") None).

(** The same capability hitting a rate limit of its own. *)
Definition throttled : pyfunction :=
  json_schema "Look a fact up" []
              (mkFunction "lookup" true (fun _ => Raise (OpenAIError "rate limit")) None).

(** A subclass method of the engine carrying a schema. *)
Definition recap : pyfunction :=
  json_schema "Summarise" [] (mkFunction "recap" true (fun _ => Return "done") None).

(** The caller's store: one [tools] dict with the owner [kb], and another
    one that already has an entry under ['self']. *)
Definition store : heap :=
  mkHeap [[("kb", 0)]; [("self", 0); ("kb", 0)]]
         [Tool [("lookup", lookup)]] (fun _ => []).

Definition throttled_store : heap :=
  mkHeap [[("kb", 0)]] [Tool [("lookup", throttled)]] (fun _ => []).

Definition with_tools (d : dref) : init_kwargs :=
  mkInitKwargs None None None None (Some d) (Some "You are terse.").

Definition tool_call : response :=
  mkResponse [mkResponseMessage None (Some (mkFunctionCall "kb-lookup" "{}"))] 7.

Definition answer : response :=
  mkResponse [mkResponseMessage (Some "  The answer is forty-two. ") None] 9.

Definition rate_limited : endpoint_event := Fails (OpenAIError "rate limit").

(** An engine built over the caller's first dict; it is object [1]. *)
Definition engine_store : heap :=
  match init [("recap", recap)] (with_tools 0) store with
  | Return (_, h) => h
  | Raise _ => store
  end.

(** The same engine over a store whose capability is rate limited. *)
Definition throttled_engine_store : heap :=
  match init [("recap", recap)] (with_tools 0) throttled_store with
  | Return (_, h) => h
  | Raise _ => throttled_store
  end.

Definition conversation : list message :=
  [RoleMessage "system" "You are terse."; RoleMessage "user" "hi"].

Definition batch : list (input_item * list endpoint_event) :=
  [(Text "first", [Responds answer]);
   (Text "second", [Fails (InvalidRequestError "bad schema")]);
   (Prior (mkChatResponse "third" 3), [rate_limited; Responds tool_call; Responds answer])].

(** The retry loop of an engine with [max_delay = 10] and no schemas. *)
Definition sample_loop (h : heap) (script : list endpoint_event) (st : loop_state)
  : outcome * loop_state :=
  chat_loop loads_empty_object 1 h "gpt-4" (QArith_base.Qmake 0 1) None 10 script st.

(** The endpoint answers with a tool call and then with content while the
    capability is rate limited. *)
Definition throttled_run : outcome * loop_state :=
  sample_loop throttled_engine_store [Responds tool_call; Responds answer]
              (initial_state conversation).

End Samples.

(* ================================================================== *)
(** * rss_importer.py: the chunker, the retry loop and the entity filter
      of [FeedProcessor] *)
(* ================================================================== *)

Module Importer.
Import Py Engine.
Local Open Scope string_scope.
Local Open Scope list_scope.

Section SplitForNer.

(** [len(self.encoder.encode(_))] *)
Variable encode_len : string -> nat.

(** The [for paragraph in paragraphs] loop of [split_text_for_ner]: the
    running buffer is one string. *)
Fixpoint ner_loop (token_limit : Z) (paragraphs : list string)
         (result : list string) (temp_paragraphs : string)
  : list string * string :=
  match paragraphs with
  | [] => (result, temp_paragraphs)
  | paragraph :: rest =>
      let tokens := Z.of_nat (encode_len paragraph) in
      if (token_limit <? tokens + Z.of_nat (encode_len temp_paragraphs))%Z
      then ner_loop token_limit rest (result ++ [strip temp_paragraphs]) paragraph
      else ner_loop token_limit rest result
                    (temp_paragraphs ++ String nl EmptyString ++ paragraph)
  end.

(** [split_text_for_ner], on the paragraphs that
    [nltk.tokenize.blankline_tokenize(text)] returned. *)
Definition split_text_for_ner (paragraphs : list string) (token_limit : Z)
  : list string :=
  let '(result, temp_paragraphs) := ner_loop token_limit paragraphs [] "" in
  result ++ [strip temp_paragraphs].

(** The same loop, recording besides which paragraphs make up the running
    buffer and each emitted chunk. *)
Fixpoint ner_group_loop (token_limit : Z) (paragraphs : list string)
         (groups : list (list string)) (group : list string)
         (temp_paragraphs : string)
  : list (list string) * list string * string :=
  match paragraphs with
  | [] => (groups, group, temp_paragraphs)
  | paragraph :: rest =>
      let tokens := Z.of_nat (encode_len paragraph) in
      if (token_limit <? tokens + Z.of_nat (encode_len temp_paragraphs))%Z
      then ner_group_loop token_limit rest (groups ++ [group]) [paragraph] paragraph
      else ner_group_loop token_limit rest groups (group ++ [paragraph])
                          (temp_paragraphs ++ String nl EmptyString ++ paragraph)
  end.

Definition ner_groups (paragraphs : list string) (token_limit : Z)
  : list (list string) :=
  let '(groups, group, _) := ner_group_loop token_limit paragraphs [] [] "" in
  groups ++ [group].

End SplitForNer.

(** The running buffer of [split_text_for_ner] against the paragraphs it
    holds: empty, their join, or their join after a newline. *)
Definition buffer_of (group : list string) (temp_paragraphs : string) : Prop :=
  (group = [] /\ temp_paragraphs = "") \/
  (group <> [] /\
   (temp_paragraphs = join (String nl EmptyString) group \/
    temp_paragraphs = String nl (join (String nl EmptyString) group))).

(** ** perform_ner: the filter on the entities *)

(** One extracted entity: a dict with the keys ['type'] and ['entity']. *)
Record named_entity := mkEntity { ne_type : string; ne_entity : string }.

(** [dict_["entity"] in unique_entities] *)
Definition seen (unique_entities : list string) (name : string) : bool :=
  existsb (String.eqb name) unique_entities.

(** The [for dict_ in entities] loop: [unique_entities] is the set of the
    names met so far. *)
Fixpoint unique_loop (entities : list named_entity) (unique_entities : list string)
         (no_duplicates : list named_entity) : list named_entity :=
  match entities with
  | [] => no_duplicates
  | dict_ :: rest =>
      if seen unique_entities (ne_entity dict_)
      then unique_loop rest unique_entities no_duplicates
      else unique_loop rest (ne_entity dict_ :: unique_entities)
                       (no_duplicates ++ [dict_])
  end.

(** The end of [perform_ner], from [unique_entities = set()] on. *)
Definition unique_entities (entities : list named_entity) : list named_entity :=
  unique_loop entities [] [].

(** ** FeedProcessor._chat_one_shot *)

(** The keyword arguments of [openai.ChatCompletion.create]: [max_tokens]
    is passed only when positive. *)
Record feed_request := mkFeedRequest {
  fr_model : string;
  fr_messages : list message;
  fr_max_tokens : option Z
}.

Definition feed_request_of (prompt user_content model_name : string) (max_tokens : Z)
  : feed_request :=
  mkFeedRequest model_name
                [RoleMessage "system" prompt; RoleMessage "user" user_content]
                (if (0 <? max_tokens)%Z then Some max_tokens else None).

Inductive feed_outcome : Type :=
| FeedReturned (content : string) (tokens : Z)
| FeedRaised (e : exn)
| FeedAwaiting.

(** The body of [try]. *)
Definition feed_attempt (ev : endpoint_event) : pyres (string * Z) :=
  match ev with
  | Fails e => Raise e
  | Responds response =>
      match choices response with
      | [] => Raise (IndexError "list index out of range")
      | response_message :: _ =>
          match rm_content response_message with
          | None => Raise (AttributeError "strip")
          | Some content => Return (strip content, completion_tokens response)
          end
      end
  end.

(** [while True: try ... except openai.error.OpenAIError ... except
    Exception ...]: the first clause also takes invalid-request errors;
    [__exponential_backoff] builds the [asyncio.sleep] coroutine without
    awaiting it, so only [delay] changes.  Returns the outcome, the final
    [delay] and the number of requests made. *)
Fixpoint feed_chat_loop (script : list endpoint_event) (delay : Z) (requests : nat)
  : feed_outcome * Z * nat :=
  match script with
  | [] => (FeedAwaiting, delay, requests)
  | ev :: rest =>
      match feed_attempt ev with
      | Return (content, tokens) => (FeedReturned content tokens, delay, S requests)
      | Raise e =>
          if is_openai_error e then feed_chat_loop rest (delay * 2) (S requests)
          else (FeedRaised e, delay, S requests)
      end
  end.

Definition feed_chat_one_shot (script : list endpoint_event) : feed_outcome * Z * nat :=
  feed_chat_loop script 1 0.

End Importer.

(* ================================================================== *)
(** * More concrete inputs *)
(* ================================================================== *)

Module MoreSamples.
Import Py Chunker Engine Samples Importer.
Local Open Scope string_scope.
Local Open Scope list_scope.

(** A tool chest whose owner key contains the separator. *)
Definition dashed_store : heap :=
  mkHeap [[("my-kb", 0)]] [Tool [("lookup", lookup)]] (fun _ => []).

Definition dashed_engine_store : heap :=
  match init [] (with_tools 0) dashed_store with
  | Return (_, h) => h
  | Raise _ => dashed_store
  end.

(** An engine built without a prompt. *)
Definition promptless_store : heap :=
  match init [] (mkInitKwargs None None None None (Some 0) None) store with
  | Return (_, h) => h
  | Raise _ => store
  end.

Definition the_engine : engine :=
  mkEngine "gpt-3.5-turbo-16k" (QArith_base.Qmake 1 2) 10 3 0
           (Some "You are terse.") None.

Definition lookup_schema : schema :=
  mkSchema "lookup" "Look a fact up" [("topic", mkProperty "string" "")]
           (Some ["topic"]).

Definition entities : list named_entity :=
  [mkEntity "PERSON" "Ada"; mkEntity "ORG" "ACM"; mkEntity "AUTHOR" "Ada"].

(** The schemas published by the sample engine and the store afterwards. *)
Definition published : list schema * heap :=
  match functions 1 engine_store with
  | Return r => r
  | Raise _ => ([], engine_store)
  end.

(** A batch whose second element meets an endpoint that keeps failing. *)
Definition stuck_batch : list (input_item * list endpoint_event) :=
  [(Text "first", [Responds answer]);
   (Text "second", [rate_limited; rate_limited])].

(** A tool call whose arguments do not decode. *)
Definition garbled_tool_call : response :=
  mkResponse [mkResponseMessage None (Some (mkFunctionCall "kb-lookup" "{"))] 7.

Definition no_kwargs : init_kwargs := mkInitKwargs None None None None None None.

(** The tool object with a static method that carries no schema and a
    data attribute besides its bound method, and an engine built over it. *)
Definition describe : pyfunction :=
  mkFunction "describe" true (fun _ => Return "a knowledge base") None.

Definition attributed_store : heap :=
  mkHeap [[("kb", 0)]] [Tool [("lookup", lookup)]]
         (fun o => match o with
                   | O => [("describe", Callable describe); ("version", Plain)]
                   | S _ => []
                   end).

Definition attributed_engine_store : heap :=
  match init [("recap", recap)] (with_tools 0) attributed_store with
  | Return (_, h) => h
  | Raise _ => attributed_store
  end.



End MoreSamples.

(* ================================================================== *)
(** * Facts about the Python primitives *)
(* ================================================================== *)

Section PyFacts.
Import Py.

Lemma split_not_nil sep s : split sep s <> [].
Proof.
  destruct s as [|c s]; simpl; [discriminate|].
  destruct (Ascii.eqb c sep); [discriminate|].
  destruct (split sep s); discriminate.
Qed.

Lemma split_lacks sep s :
  Forall (fun p => lacks sep p = true) (split sep s).
Proof.
  induction s as [|c s IH]; simpl.
  - repeat constructor.
  - destruct (Ascii.eqb c sep) eqn:E.
    + constructor; [reflexivity | exact IH].
    + destruct (split sep s) as [|p ps].
      * repeat constructor. simpl. now rewrite E.
      * inversion IH; subst. constructor; [|assumption].
        simpl. rewrite E. assumption.
Qed.

Lemma split_lacks_id sep s : lacks sep s = true -> split sep s = [s].
Proof.
  induction s as [|c s IH]; simpl; [reflexivity|].
  intros H. apply andb_prop in H as [Hc Hs].
  apply negb_true_iff in Hc. rewrite Hc, (IH Hs). reflexivity.
Qed.

Lemma split_app_sep sep a s :
  lacks sep a = true ->
  split sep (a ++ String sep s) = a :: split sep s.
Proof.
  induction a as [|c a IH]; simpl.
  - intros _. now rewrite Ascii.eqb_refl.
  - intros H. apply andb_prop in H as [Hc Ha].
    apply negb_true_iff in Hc. rewrite Hc, (IH Ha). reflexivity.
Qed.

Lemma split_join sep ps :
  ps <> [] -> Forall (fun p => lacks sep p = true) ps ->
  split sep (join (String sep EmptyString) ps) = ps.
Proof.
  induction ps as [|p ps IH]; [congruence|].
  intros _ H. inversion H as [|? ? Hp Hps]; subst.
  destruct ps as [|q ps].
  - simpl. now apply split_lacks_id.
  - change (join (String sep EmptyString) (p :: q :: ps))
      with (p ++ String sep (join (String sep EmptyString) (q :: ps)))%string.
    rewrite (split_app_sep _ _ _ Hp). f_equal.
    apply IH; [discriminate | assumption].
Qed.

(** Splitting [owner-name] at most twice gives back the two halves. *)
Lemma split_max_pair sep a b :
  lacks sep a = true -> lacks sep b = true ->
  split_max sep (a ++ String sep b) 2 = [a; b].
Proof.
  intros Ha Hb.
  assert (Hb1 : split_max sep b 1 = [b]).
  { clear Ha. induction b as [|c b IH]; simpl; [reflexivity|].
    simpl in Hb. apply andb_prop in Hb as [Hc Hb].
    apply negb_true_iff in Hc. rewrite Hc, (IH Hb). reflexivity. }
  induction a as [|c a IH]; simpl.
  - rewrite Ascii.eqb_refl. now rewrite Hb1.
  - simpl in Ha. apply andb_prop in Ha as [Hc Ha].
    apply negb_true_iff in Hc. rewrite Hc, (IH Ha). reflexivity.
Qed.

Lemma lstrip_solid s : starts_solid s = true -> lstrip s = s.
Proof.
  destruct s as [|c s]; simpl; [discriminate|].
  intros H. apply negb_true_iff in H. now rewrite H.
Qed.

Lemma rstrip_solid s : ends_solid s = true -> rstrip s = s.
Proof.
  induction s as [|c s IH]; [discriminate|].
  destruct s as [|d s].
  - simpl. intros H. apply negb_true_iff in H. now rewrite H.
  - intros H. change (ends_solid (String d s) = true) in H.
    specialize (IH H).
    change (rstrip (String c (String d s)))
      with (match rstrip (String d s) with
            | EmptyString => if is_space c then EmptyString else String c EmptyString
            | r => String c r
            end).
    rewrite IH. reflexivity.
Qed.

Lemma strip_solid s :
  starts_solid s = true -> ends_solid s = true -> strip s = s.
Proof.
  intros Hs He. unfold strip. rewrite (lstrip_solid _ Hs). now apply rstrip_solid.
Qed.

Lemma ends_solid_app a b : ends_solid b = true -> ends_solid (a ++ b) = true.
Proof.
  intros Hb. induction a as [|c a IH]; simpl; [assumption|].
  destruct (a ++ b)%string eqn:E; [|assumption].
  destruct a; simpl in E; [subst b|]; discriminate.
Qed.

Lemma starts_solid_app a b : starts_solid a = true -> starts_solid (a ++ b) = true.
Proof. destruct a; simpl; [discriminate | trivial]. Qed.

Lemma starts_solid_join sep p ps :
  starts_solid p = true -> starts_solid (join sep (p :: ps)) = true.
Proof.
  intros H. destruct ps; [assumption|].
  change (starts_solid (p ++ (sep ++ join sep (s :: ps)))%string = true).
  now apply starts_solid_app.
Qed.

Lemma ends_solid_join sep ps :
  ps <> [] -> Forall (fun p => ends_solid p = true) ps ->
  ends_solid (join sep ps) = true.
Proof.
  induction ps as [|p ps IH]; [congruence|].
  intros _ H. inversion H as [|? ? Hp Hps]; subst.
  destruct ps as [|q ps]; [assumption|].
  change (ends_solid (p ++ (sep ++ join sep (q :: ps)))%string = true).
  do 2 apply ends_solid_app. apply IH; [discriminate | assumption].
Qed.

Lemma Forall_skipn {A} (P : A -> Prop) n l : Forall P l -> Forall P (skipn n l).
Proof.
  intros H. rewrite <- (firstn_skipn n l) in H.
  now apply Forall_app in H.
Qed.

Lemma dict_get_set_same {V} (d : dict V) k v : dict_get (dict_set d k v) k = Some v.
Proof.
  induction d as [|[k' v'] d IH]; simpl.
  - now rewrite String.eqb_refl.
  - destruct (String.eqb k' k) eqn:E; simpl.
    + now rewrite String.eqb_refl.
    + now rewrite E.
Qed.


Lemma dict_get_in_keys {V} (d : dict V) k v :
  dict_get d k = Some v -> In k (dict_keys d).
Proof.
  induction d as [|[k' v'] d IH]; simpl; [discriminate|].
  destruct (String.eqb k' k) eqn:E.
  - apply String.eqb_eq in E. now left.
  - intros H. right. now apply IH.
Qed.

End PyFacts.

(* ================================================================== *)
(** * The chunker *)
(* ================================================================== *)

Section ChunkerFacts.
Import Py Chunker.

Variable encode_len : string -> nat.
Variable chunk_size : Z.

Local Abbreviation chunk_loop := (chunk_loop encode_len chunk_size).
Local Abbreviation buffer_loop := (buffer_loop encode_len chunk_size).
Local Abbreviation chunk_paragraphs := (chunk_paragraphs encode_len chunk_size).
Local Abbreviation chunk_buffers := (chunk_buffers encode_len chunk_size).

(** The chunks are the renderings of the recorded buffers. *)
Lemma chunk_loop_buffer_loop overlap paragraphs :
  forall emitted temp,
    chunk_loop overlap paragraphs (map render emitted) temp =
    (map render (fst (buffer_loop overlap paragraphs emitted temp)),
     snd (buffer_loop overlap paragraphs emitted temp)).
Proof.
  induction paragraphs as [|p ps IH]; intros emitted temp; simpl; [reflexivity|].
  destruct (chunk_size <? _)%Z.
  - rewrite <- IH. now rewrite map_app.
  - apply IH.
Qed.

Lemma chunk_paragraphs_render text overlap :
  chunk_paragraphs text overlap = map render (chunk_buffers text overlap).
Proof.
  unfold Chunker.chunk_paragraphs, Chunker.chunk_buffers.
  change (@nil string) with (map render []) at 1.
  rewrite chunk_loop_buffer_loop.
  destruct (buffer_loop overlap (split nl text) [] []) as [emitted temp]; simpl.
  destruct temp; [reflexivity|]. now rewrite map_app.
Qed.

(** After at least one paragraph the running buffer is never empty. *)
Lemma buffer_loop_temp overlap paragraphs :
  forall emitted temp,
    paragraphs <> [] \/ temp <> [] ->
    snd (buffer_loop overlap paragraphs emitted temp) <> [].
Proof.
  induction paragraphs as [|p ps IH]; intros emitted temp H; simpl.
  - destruct H; congruence.
  - destruct (chunk_size <? _)%Z; apply IH; right;
      intros E; apply app_eq_nil in E as [_ E]; discriminate.
Qed.

Lemma chunk_buffers_not_nil text overlap : chunk_buffers text overlap <> [].
Proof.
  unfold Chunker.chunk_buffers.
  pose proof (buffer_loop_temp overlap (split nl text) [] []
                (or_introl (split_not_nil nl text))) as H.
  destruct (buffer_loop overlap (split nl text) [] []) as [emitted temp].
  simpl in H. destruct temp; [congruence|].
  intros E. apply app_eq_nil in E as [_ E]. discriminate.
Qed.

Lemma chunk_paragraphs_not_nil text overlap : chunk_paragraphs text overlap <> [].
Proof.
  rewrite chunk_paragraphs_render. intros E. apply map_eq_nil in E.
  now apply (chunk_buffers_not_nil text overlap).
Qed.

(** ** What is carried over after a limit split *)

(** For a positive overlap the retained buffer is the last [min k n]
    paragraphs of the emitted one. *)
Lemma retained_positive (k : Z) temp :
  (0 < k)%Z ->
  retained k temp =
  skipn (length temp - Z.to_nat (Z.min k (Z.of_nat (length temp)))) temp.
Proof.
  intros Hk. unfold retained, slice_from.
  destruct (k <? Z.of_nat (length temp))%Z eqn:E.
  - apply Z.ltb_lt in E.
    replace (- k <? 0)%Z with true by (symmetry; apply Z.ltb_lt; lia).
    f_equal. lia.
  - apply Z.ltb_ge in E.
    replace (length temp - Z.to_nat (Z.min k (Z.of_nat (length temp)))) with 0 by lia.
    reflexivity.
Qed.

Lemma retained_length (k : Z) temp :
  (0 < k)%Z ->
  length (retained k temp) = Z.to_nat (Z.min k (Z.of_nat (length temp))).
Proof.
  intros Hk. rewrite retained_positive by assumption.
  rewrite length_skipn. lia.
Qed.

(** For overlap [0] the slice [temp_paragraphs[-0:]] is the whole buffer:
    nothing is removed. *)
Lemma retained_zero temp : retained 0 temp = temp.
Proof.
  unfold retained, slice_from.
  destruct (0 <? Z.of_nat (length temp))%Z; [|reflexivity].
  change (- 0 <? 0)%Z with false. cbv iota.
  rewrite Z.min_l by lia. reflexivity.
Qed.

Lemma retained_Forall (P : string -> Prop) k temp :
  Forall P temp -> Forall P (retained k temp).
Proof.
  intros H. unfold retained, slice_from.
  destruct (k <? _)%Z; [now apply Forall_skipn | assumption].
Qed.

(** ** Reconstruction from the buffers *)

Lemma last_cons_default {A} (a : A) bs : forall prev, last (a :: bs) prev = last bs a.
Proof.
  revert a. induction bs as [|x bs IH]; intros a prev; [reflexivity|].
  change (last (a :: x :: bs) prev) with (last (x :: bs) prev).
  change (last (x :: bs) a) with (match bs with [] => x | _ => last bs a end).
  rewrite IH. destruct bs; [reflexivity|]. now rewrite <- (IH x a).
Qed.

Lemma drop_overlap_snoc k bs :
  forall prev b,
    drop_overlap k prev (bs ++ [b]) =
    drop_overlap k prev bs
    ++ skipn (Z.to_nat (Z.min k (Z.of_nat (length (last bs prev))))) b.
Proof.
  induction bs as [|a bs IH]; intros prev b.
  - simpl. now rewrite app_nil_r.
  - change ((a :: bs) ++ [b]) with (a :: (bs ++ [b])).
    cbn [drop_overlap]. rewrite IH, <- app_assoc, last_cons_default.
    reflexivity.
Qed.

Lemma buffer_loop_rejoin k paragraphs :
  (0 < k)%Z ->
  forall emitted temp,
    Z.to_nat (Z.min k (Z.of_nat (length (last emitted [])))) <= length temp ->
    drop_overlap k [] (fst (buffer_loop k paragraphs emitted temp)
                       ++ [snd (buffer_loop k paragraphs emitted temp)]) =
    drop_overlap k [] (emitted ++ [temp]) ++ paragraphs.
Proof.
  intros Hk. induction paragraphs as [|p ps IH]; intros emitted temp Hseed; simpl.
  - now rewrite app_nil_r.
  - destruct (chunk_size <? _)%Z.
    + rewrite IH.
      * rewrite (drop_overlap_snoc k (emitted ++ [temp])), last_last.
        rewrite skipn_app, <- (retained_length k temp Hk).
        rewrite skipn_all, Nat.sub_diag. simpl. now rewrite <- app_assoc.
      * rewrite last_last, length_app, <- (retained_length k temp Hk). lia.
    + rewrite IH by (rewrite length_app; lia).
      rewrite !drop_overlap_snoc, skipn_app.
      replace (_ - length temp) with 0 by lia.
      simpl. now rewrite <- !app_assoc.
Qed.

Lemma rejoin_chunk_buffers text k :
  (0 < k)%Z ->
  rejoin_buffers k (chunk_buffers text k) = split nl text.
Proof.
  intros Hk. unfold rejoin_buffers, Chunker.chunk_buffers.
  assert (Hseed : Z.to_nat (Z.min k (Z.of_nat (length (last (@nil (list string)) []))))
                  <= length (@nil string)) by (cbn [last length]; lia).
  pose proof (buffer_loop_rejoin k (split nl text) Hk [] [] Hseed) as H.
  destruct (buffer_loop k (split nl text) [] []) as [emitted temp].
  cbn [fst snd app drop_overlap] in H.
  rewrite skipn_nil in H. cbn [app] in H.
  destruct temp; [|exact H].
  rewrite drop_overlap_snoc, skipn_nil, app_nil_r in H. exact H.
Qed.

(** ** Reconstruction from the chunk strings *)

Lemma faithful_render b : faithful b -> split nl (render b) = b.
Proof.
  intros (Hne & Ht & Hl). unfold render.
  rewrite strip_solid.
  - now apply split_join.
  - destruct b as [|p b]; [congruence|].
    apply starts_solid_join. inversion Ht as [|? ? [Hs _] _]. exact Hs.
  - apply ends_solid_join; [assumption|].
    eapply Forall_impl; [|exact Ht]. now intros p [_ He].
Qed.

Lemma faithful_snoc b p :
  Forall tidy b -> Forall (fun p => lacks nl p = true) b ->
  tidy p -> lacks nl p = true -> faithful (b ++ [p]).
Proof.
  intros Ht Hl Hp Hlp. split; [|split].
  - intros E. apply app_eq_nil in E as [_ E]. discriminate.
  - apply Forall_app. split; [assumption | now constructor].
  - apply Forall_app. split; [assumption | now constructor].
Qed.

Lemma buffer_loop_faithful overlap paragraphs :
  Forall tidy paragraphs -> Forall (fun p => lacks nl p = true) paragraphs ->
  forall emitted temp,
    Forall faithful emitted -> faithful temp ->
    Forall faithful (fst (buffer_loop overlap paragraphs emitted temp)) /\
    faithful (snd (buffer_loop overlap paragraphs emitted temp)).
Proof.
  induction paragraphs as [|p ps IH]; intros Ht Hl emitted temp He Htemp; simpl.
  - now split.
  - inversion Ht as [|? ? Hp Hps]; inversion Hl as [|? ? Hlp Hlps]; subst.
    destruct Htemp as (Hne & Htt & Htl).
    destruct (chunk_size <? _)%Z; apply IH; try assumption.
    + apply Forall_app. split; [assumption|]. constructor; [|constructor].
      now repeat split.
    + apply faithful_snoc; try assumption; now apply retained_Forall.
    + now apply faithful_snoc.
Qed.

Lemma chunk_buffers_faithful text overlap :
  Forall tidy (split nl text) ->
  (Z.of_nat (encode_len (hd EmptyString (split nl text))) <= chunk_size)%Z ->
  Forall faithful (chunk_buffers text overlap).
Proof.
  intros Ht Hfit. unfold Chunker.chunk_buffers.
  pose proof (split_lacks nl text) as Hl.
  destruct (split nl text) as [|p ps] eqn:E; [now apply split_not_nil in E|].
  simpl in Hfit. cbn [Chunker.buffer_loop sum_tokens].
  replace (chunk_size <? Z.of_nat (encode_len p) + 0)%Z with false
    by (symmetry; apply Z.ltb_ge; lia).
  inversion Ht as [|? ? Hp Hps]; inversion Hl as [|? ? Hlp Hlps]; subst.
  destruct (buffer_loop_faithful overlap ps Hps Hlps [] ([] ++ [p])) as [H1 H2].
  { constructor. }
  { apply faithful_snoc; trivial. }
  destruct (buffer_loop overlap ps [] ([] ++ [p])) as [emitted temp]. simpl in *.
  destruct temp; [assumption|].
  apply Forall_app. split; [assumption|]. now constructor.
Qed.

Lemma rejoin_faithful k bs :
  Forall faithful bs -> rejoin k (map render bs) = rejoin_buffers k bs.
Proof.
  intros H. unfold rejoin. f_equal. rewrite map_map.
  rewrite <- (map_id bs) at 2. apply map_ext_in.
  intros b Hb. apply faithful_render.
  rewrite Forall_forall in H. now apply H.
Qed.

End ChunkerFacts.

(* ================================================================== *)
(** * The retry loop *)
(* ================================================================== *)

Section DispatchFacts.
Import Py Engine.

Variable json_loads : string -> pyres json.
Variable self : oref.
Variable h : heap.
Variable opts_model : string.
Variable opts_temperature : Q.
Variable opts_functions : option (list schema).
Variable limit : Z.

Local Abbreviation chat_loop :=
  (chat_loop json_loads self h opts_model opts_temperature opts_functions limit).
Local Abbreviation attempt := (attempt json_loads self h).
Local Abbreviation send := (send opts_model opts_temperature opts_functions).
Local Abbreviation backoff := (backoff limit).
Local Abbreviation backed_off :=
  (backed_off opts_model opts_temperature opts_functions limit).

(** How the three [except] clauses treat whatever the [try] body raised. *)
Lemma chat_loop_raise ev rest st e st' :
  attempt ev (send st) = (Raise e, st') ->
  chat_loop (ev :: rest) st =
  if is_invalid_request e then (Raised e, st')
  else if is_openai_error e then chat_loop rest (backoff st')
  else (Raised e, st').
Proof. intros H. cbn [Engine.chat_loop]. now rewrite H. Qed.

Lemma chat_loop_transient msgs : forall rest st,
  chat_loop (map (fun m => Fails (OpenAIError m)) msgs ++ rest) st =
  chat_loop rest (backed_off (length msgs) st).
Proof.
  induction msgs as [|m msgs IH]; intros rest st; [reflexivity|].
  cbn [map app length Engine.backed_off]. rewrite <- IH. reflexivity.
Qed.

Lemma backed_off_messages n : forall st, messages (backed_off n st) = messages st.
Proof. induction n as [|n IH]; intros st; [reflexivity|]. cbn [Engine.backed_off]. now rewrite IH. Qed.

Lemma backed_off_delay n : forall st,
  delay (backed_off n st) = (delay st * 2 ^ Z.of_nat n)%Z.
Proof.
  induction n as [|n IH]; intros st.
  - cbn [Engine.backed_off Z.of_nat]. rewrite Z.pow_0_r. lia.
  - cbn [Engine.backed_off]. rewrite IH. cbn [Engine.backoff Engine.send delay].
    rewrite Nat2Z.inj_succ, Z.pow_succ_r by lia. lia.
Qed.

(** The [k]-th sleep lasts [min (2 * delay0 * 2^(k-1)) max_delay]. *)
Lemma backed_off_slept n : forall st,
  slept (backed_off n st) =
  slept st ++ map (fun k => Z.min (2 * (delay st * 2 ^ Z.of_nat k)) limit) (seq 0 n).
Proof.
  induction n as [|n IH]; intros st.
  - cbn [Engine.backed_off seq map]. now rewrite app_nil_r.
  - cbn [Engine.backed_off]. rewrite IH. cbn [Engine.backoff Engine.send delay slept].
    rewrite <- app_assoc. f_equal. cbn [seq map app]. f_equal.
    + rewrite Z.pow_0_r. f_equal. lia.
    + rewrite <- seq_shift, map_map. apply map_ext. intros k.
      rewrite Nat2Z.inj_succ, Z.pow_succ_r by lia. f_equal. lia.
Qed.

Lemma backed_off_sent n : forall st,
  sent (backed_off n st) =
  sent st ++ repeat (mkRequest opts_model opts_temperature (messages st) opts_functions) n.
Proof.
  induction n as [|n IH]; intros st.
  - cbn [Engine.backed_off repeat]. now rewrite app_nil_r.
  - cbn [Engine.backed_off]. rewrite IH. cbn [Engine.backoff Engine.send sent messages repeat].
    now rewrite <- app_assoc.
Qed.

(** No run of the loop ends by raising a transient provider error. *)
Lemma chat_loop_never_raises_transient script : forall st e,
  fst (chat_loop script st) = Raised e ->
  is_invalid_request e = true \/ is_openai_error e = false.
Proof.
  induction script as [|ev rest IH]; intros st e; [discriminate|].
  cbn [Engine.chat_loop].
  destruct (attempt ev (send st)) as [[[r|]|e'] st'] eqn:E.
  - discriminate.
  - apply IH.
  - destruct (is_invalid_request e') eqn:Ei.
    + cbn [fst]. intros [= <-]. now left.
    + destruct (is_openai_error e') eqn:Eo.
      * apply IH.
      * cbn [fst]. intros [= <-]. now right.
Qed.

End DispatchFacts.

(* ================================================================== *)
(** * The store and the capability registry *)
(* ================================================================== *)

Section RegistryFacts.
Import Py Engine.

Lemma list_set_length {A} (l : list A) : forall i v, length (list_set l i v) = length l.
Proof.
  induction l as [|a l IH]; intros [|i] v; simpl; try reflexivity.
  now rewrite IH.
Qed.

Lemma nth_error_list_set_same {A} (l : list A) : forall i v,
  i < length l -> nth_error (list_set l i v) i = Some v.
Proof.
  induction l as [|a l IH]; intros [|i] v Hi; simpl in *; try lia; [reflexivity|].
  apply IH. lia.
Qed.

Lemma nth_error_list_set_other {A} (l : list A) : forall i j v,
  i <> j -> nth_error (list_set l i v) j = nth_error l j.
Proof.
  induction l as [|a l IH]; intros [|i] [|j] v Hne; simpl; try reflexivity; try congruence.
  apply IH. congruence.
Qed.

Lemma dict_get_In {V} (d : dict V) k v : dict_get d k = Some v -> In (k, v) d.
Proof.
  induction d as [|[k' v'] d IH]; simpl; [discriminate|].
  destruct (String.eqb k' k) eqn:E.
  - apply String.eqb_eq in E. intros [= ->]. subst. now left.
  - intros H. right. now apply IH.
Qed.

(** Caching the schemas changes neither the dicts nor anybody's methods. *)
Lemma members_set_engine h self e e' methods o :
  get_object h self = Some (EngineObj e methods) ->
  members (set_object h self (EngineObj e' methods)) o = members h o.
Proof.
  intros H. unfold members, get_object, set_object in *. cbn [objects].
  destruct (Nat.eq_dec self o) as [->|Hne].
  - rewrite nth_error_list_set_same, H; [reflexivity|].
    apply nth_error_Some. congruence.
  - now rewrite nth_error_list_set_other.
Qed.

Lemma get_object_set_same h self v :
  self < length (objects h) -> get_object (set_object h self v) self = Some v.
Proof. intros H. unfold get_object, set_object. cbn [objects]. now apply nth_error_list_set_same. Qed.

(** A bound method is what [getattr] finds under its name. *)
Lemma getattr_method h o name f :
  dict_get (members h o) name = Some f -> getattr h o name = Some (Callable f).
Proof. intros H. unfold getattr. now rewrite H. Qed.

(** Caching the schemas changes nobody's attributes. *)
Lemma getattr_set_engine h self e e' methods o name :
  get_object h self = Some (EngineObj e methods) ->
  getattr (set_object h self (EngineObj e' methods)) o name = getattr h o name.
Proof.
  intros H. unfold getattr.
  rewrite (members_set_engine h self e e' methods o H).
  destruct (dict_get (members h o) name); [reflexivity|].
  change (others (set_object h self (EngineObj e' methods))) with (others h).
  destruct (Nat.eq_dec self o) as [->|Hne].
  - rewrite get_object_set_same, H; [reflexivity|].
    apply nth_error_Some. unfold get_object in H. congruence.
  - unfold get_object, set_object. cbn [objects].
    now rewrite nth_error_list_set_other.
Qed.

Lemma owner_schemas_In src_name methods : forall name f sc,
  In (name, f) methods -> fn_schema f = Some sc ->
  In (mkSchema (src_name ++ String dash (s_name sc)) (s_description sc)
               (s_properties sc) (s_required sc))
     (owner_schemas src_name methods).
Proof.
  induction methods as [|[k m] methods IH]; intros name f sc Hin Hsc; [contradiction|].
  cbn [owner_schemas]. destruct Hin as [[= -> ->]|Hin].
  - rewrite Hsc. now left.
  - destruct (fn_schema m); [right|]; eapply IH; eassumption.
Qed.

Lemma collect_schemas_In h chest keys : forall owner o name f sc,
  In owner keys -> dict_get chest owner = Some o ->
  In (name, f) (members h o) -> fn_schema f = Some sc ->
  In (mkSchema (owner ++ String dash (s_name sc)) (s_description sc)
               (s_properties sc) (s_required sc))
     (collect_schemas h chest keys).
Proof.
  induction keys as [|k keys IH]; intros owner o name f sc Hin Hget Hm Hsc; [contradiction|].
  cbn [collect_schemas]. destruct Hin as [->|Hin].
  - rewrite Hget. apply in_or_app. left. eapply owner_schemas_In; eassumption.
  - destruct (dict_get chest k); [apply in_or_app; right|]; eapply IH; eassumption.
Qed.

(** What [functions] does to the store. *)
Lemma functions_fresh h self e methods chest :
  get_object h self = Some (EngineObj e methods) ->
  schemas e = None ->
  get_dict h (tool_chest e) = Some chest ->
  functions self h =
  Return (collect_schemas h chest (dict_keys chest),
          set_object h self
            (EngineObj (mkEngine (model_name e) (temperature e) (max_delay e)
                                 (concurrency_limit e) (tool_chest e) (prompt e)
                                 (Some (collect_schemas h chest (dict_keys chest))))
                       methods)).
Proof.
  intros Ho Hs Hd. unfold functions, get_engine. rewrite Ho. cbn [bind].
  now rewrite Hs, Hd.
Qed.


End RegistryFacts.

(* ================================================================== *)
(** * Gathering and combining *)
(* ================================================================== *)

Section GatherFacts.
Import Py Engine.

Lemma all_settled_map_Some results : all_settled (map Some results) = Some results.
Proof.
  induction results as [|r rs IH]; [reflexivity|].
  cbn [map all_settled]. now rewrite IH.
Qed.

Lemma finish_length tasks slots i : length (finish tasks slots i) = length slots.
Proof.
  unfold finish. destruct (nth_error tasks i) as [[r|]|]; try reflexivity.
  apply list_set_length.
Qed.

(** A slot that holds its task's result keeps it. *)
Lemma finish_keeps tasks slots i j :
  nth_error slots j = nth_error tasks j ->
  nth_error (finish tasks slots i) j = nth_error tasks j.
Proof.
  intros H. unfold finish. destruct (nth_error tasks i) as [[r|]|] eqn:E; try exact H.
  destruct (Nat.eq_dec i j) as [<-|Hne].
  - rewrite nth_error_list_set_same; [now rewrite E|].
    apply nth_error_Some. rewrite H, E. discriminate.
  - now rewrite nth_error_list_set_other.
Qed.

(** A task that settles fills its own slot when it finishes. *)
Lemma finish_fills tasks slots i r :
  length slots = length tasks ->
  nth_error tasks i = Some (Some r) ->
  nth_error (finish tasks slots i) i = nth_error tasks i.
Proof.
  intros Hlen E. unfold finish. rewrite E.
  apply nth_error_list_set_same. rewrite Hlen. apply nth_error_Some. congruence.
Qed.

Lemma fold_finish_length tasks order : forall slots,
  length (fold_left (finish tasks) order slots) = length slots.
Proof.
  induction order as [|i order IH]; intros slots; [reflexivity|].
  cbn [fold_left]. now rewrite IH, finish_length.
Qed.

Lemma fold_finish_keeps tasks order : forall slots j,
  nth_error slots j = nth_error tasks j ->
  nth_error (fold_left (finish tasks) order slots) j = nth_error tasks j.
Proof.
  induction order as [|i order IH]; intros slots j H; [exact H|].
  cbn [fold_left]. apply IH. now apply finish_keeps.
Qed.

Lemma fold_finish_fills tasks order : forall slots i r,
  length slots = length tasks ->
  In i order -> nth_error tasks i = Some (Some r) ->
  nth_error (fold_left (finish tasks) order slots) i = nth_error tasks i.
Proof.
  induction order as [|k order IH]; intros slots i r Hlen Hin E; [contradiction|].
  cbn [fold_left]. destruct Hin as [->|Hin].
  - apply fold_finish_keeps. eapply finish_fills; eassumption.
  - eapply IH; try eassumption. now rewrite finish_length.
Qed.

(** Once every task has settled and finished, [gather] returns their
    results by position, whatever the order of finishing. *)
Lemma gather_all_settled results order :
  (forall i, i < length results -> In i order) ->
  gather (map Some results) order = Some results.
Proof.
  intros Hall. unfold gather.
  set (tasks := map Some results).
  assert (Hfinal : fold_left (finish tasks) order (repeat None (length tasks)) = tasks).
  { apply nth_error_ext. intros i.
    destruct (Nat.lt_ge_cases i (length results)) as [Hi|Hi].
    - destruct (nth_error results i) as [r|] eqn:E; [|apply nth_error_None in E; lia].
      apply (fold_finish_fills tasks order _ i r).
      + apply repeat_length.
      + now apply Hall.
      + unfold tasks. now rewrite nth_error_map, E.
    - transitivity (@None (option settled)); [|symmetry];
        apply nth_error_None; [rewrite fold_finish_length, repeat_length|];
        unfold tasks; rewrite length_map; exact Hi. }
  rewrite Hfinal. apply all_settled_map_Some.
Qed.

(** Whatever [gather] returns is the tasks' results by position. *)
Lemma all_settled_Some slots : forall results,
  all_settled slots = Some results -> slots = map Some results.
Proof.
  induction slots as [|[r|] slots IH]; intros results; cbn [all_settled].
  - now intros [= <-].
  - destruct (all_settled slots) as [rs|]; [|discriminate].
    intros [= <-]. cbn [map]. f_equal. now apply IH.
  - discriminate.
Qed.

Lemma finish_partial tasks slots i :
  partial tasks slots -> partial tasks (finish tasks slots i).
Proof.
  intros [Hlen Hslots]. split; [now rewrite finish_length|].
  intros j r. unfold finish.
  destruct (nth_error tasks i) as [[ri|]|] eqn:E; try apply Hslots.
  destruct (Nat.eq_dec i j) as [<-|Hne].
  - rewrite nth_error_list_set_same; [congruence|].
    rewrite Hlen. apply nth_error_Some. congruence.
  - rewrite nth_error_list_set_other by assumption. apply Hslots.
Qed.

Lemma fold_finish_partial tasks order : forall slots,
  partial tasks slots -> partial tasks (fold_left (finish tasks) order slots).
Proof.
  induction order as [|i order IH]; intros slots H; [exact H|].
  cbn [fold_left]. apply IH. now apply finish_partial.
Qed.

(** Conversely, a value returned by [gather] is the tasks' results by
    position: nothing is dropped, moved or invented. *)
Lemma gather_returns_tasks tasks order results :
  gather tasks order = Some results -> tasks = map Some results.
Proof.
  unfold gather. intros H. apply all_settled_Some in H.
  assert (Hp : partial tasks (fold_left (finish tasks) order
                                        (repeat None (length tasks)))).
  { apply fold_finish_partial. split; [apply repeat_length|].
    intros i r Hi. apply nth_error_In, repeat_spec in Hi. discriminate. }
  rewrite H in Hp. destruct Hp as [Hlen Hslots].
  apply nth_error_ext. intros i. rewrite nth_error_map.
  destruct (nth_error results i) as [r|] eqn:E.
  - apply Hslots. now rewrite nth_error_map, E.
  - apply nth_error_None. apply nth_error_None in E.
    rewrite length_map in Hlen. lia.
Qed.

Section Tasks.
Variable json_loads : string -> pyres json.
Variable self : oref.

Lemma run_tasks_length inputs : forall h,
  length (fst (run_tasks json_loads self inputs h)) = length inputs.
Proof.
  induction inputs as [|[x script] inputs IH]; intros h; [reflexivity|].
  cbn [run_tasks].
  destruct (chat_one_shot json_loads self _ script h) as [[o st] h1].
  specialize (IH h1). destruct (run_tasks json_loads self inputs h1) as [os h2].
  cbn [fst length] in *. now rewrite IH.
Qed.

(** Slot [i] of the tasks is the outcome of the loop on input [i]. *)
Lemma run_tasks_nth inputs : forall h i x script,
  nth_error inputs i = Some (x, script) ->
  nth_error (fst (run_tasks json_loads self inputs h)) i =
  Some (settle (fst (fst (chat_one_shot json_loads self
                            (user_message_only (input_text x)) script
                            (store_before json_loads self inputs i h))))).
Proof.
  induction inputs as [|[x0 script0] inputs IH]; intros h [|i] x script E;
    try discriminate.
  - cbn [nth_error] in E. injection E as -> ->.
    unfold store_before. cbn [firstn run_tasks snd].
    destruct (chat_one_shot json_loads self _ script h) as [[o st] h1].
    destruct (run_tasks json_loads self inputs h1) as [os h2]. reflexivity.
  - cbn [nth_error] in E. unfold store_before. cbn [firstn run_tasks].
    destruct (chat_one_shot json_loads self _ script0 h) as [[o st] h1].
    specialize (IH h1 i x script E). unfold store_before in IH.
    destruct (run_tasks json_loads self inputs h1) as [os h2].
    destruct (run_tasks json_loads self (firstn i inputs) h1) as [os' h2'].
    exact IH.
Qed.

End Tasks.


(** The loop stops at the first failure that is not an [Exception]. *)
Lemma combine_loop_raises results : forall text_chunks token_count,
  ~ failures_are_exceptions results ->
  combine_loop results text_chunks token_count = Raise (AttributeError "text").
Proof.
  induction results as [|[r|e] results IH]; intros text_chunks token_count Hex;
    cbn [combine_loop].
  - destruct Hex. constructor.
  - apply IH. intros Hrest. apply Hex. now constructor.
  - destruct (is_exception e) eqn:He; [|reflexivity].
    apply IH. intros Hrest. apply Hex. now constructor.
Qed.

Lemma successes_failures es : successes (map Failure es) = [].
Proof. induction es as [|e es IH]; [reflexivity | exact IH]. Qed.

End GatherFacts.

(* ================================================================== *)
(** * Properties of the dispatcher and the invocation loop *)
(* ================================================================== *)

Section LoopProperties.
Import Py Engine Samples.

Variable json_loads : string -> pyres json.
Variable self : oref.
Variable h : heap.
Variable opts_model : string.
Variable opts_temperature : Q.
Variable opts_functions : option (list schema).

Local Abbreviation chat_loop :=
  (chat_loop json_loads self h opts_model opts_temperature opts_functions).
Local Abbreviation send := (send opts_model opts_temperature opts_functions).
Local Abbreviation request :=
  (mkRequest opts_model opts_temperature).

(** After [n] consecutive transient failures the loop has slept
    [min 2 m], [min 4 m], ..., [min (2^n) m] seconds for [m = max_delay]. *)
Lemma backoff_sleeps limit msgs conversation :
  slept (snd (chat_loop limit (map (fun m => Fails (OpenAIError m)) msgs)
                        (initial_state conversation))) =
  map (fun k => Z.min (2 ^ Z.of_nat k) limit) (seq 1 (length msgs)).
Proof.
  rewrite <- (app_nil_r (map _ msgs)), chat_loop_transient.
  cbn [Engine.chat_loop snd]. rewrite backed_off_slept.
  cbn [initial_state slept delay app].
  rewrite <- seq_shift, map_map. apply map_ext. intros k.
  rewrite Nat2Z.inj_succ, Z.pow_succ_r by lia. f_equal. lia.
Qed.

(** C1, as the code behaves: with [max_delay = 10], three consecutive
    transient failures of the endpoint make the retry loop sleep 2, 4 and 8
    seconds, while delays that start at 1 and double would be 1, 2 and 4.
    The first sleep is already twice the initial delay. *)
Theorem backoff_starts_at_two m1 m2 m3 conversation :
  slept (snd (chat_loop 10 [Fails (OpenAIError m1); Fails (OpenAIError m2);
                            Fails (OpenAIError m3)]
                        (initial_state conversation))) = [2; 4; 8]%Z
  /\ stated_delays 10 3 = [1; 2; 4]%Z.
Proof. split; reflexivity. Qed.

(** C8: what the loop does with a failure [e] of the endpoint.
    An invalid-request error is raised to the caller at once: nothing more
    of the script is consumed and nothing is slept.  Any other provider
    error is never raised: the loop sleeps, doubles the delay and sends the
    same conversation again, however many times it fails in a row.  Every
    other exception is raised at once. *)
Theorem retry_policy limit e rest st :
  (is_invalid_request e = true ->
     chat_loop limit (Fails e :: rest) st = (Raised e, send st) /\
     slept (send st) = slept st) /\
  (is_invalid_request e = false -> is_openai_error e = true ->
     chat_loop limit (Fails e :: rest) st
       = chat_loop limit rest (backoff limit (send st)) /\
     messages (backoff limit (send st)) = messages st /\
     slept (backoff limit (send st)) = slept st ++ [Z.min (2 * delay st) limit] /\
     (forall n, fst (chat_loop limit (repeat (Fails e) n) st) = Awaiting) /\
     (forall script st0, fst (chat_loop limit script st0) <> Raised e)) /\
  (is_openai_error e = false ->
     chat_loop limit (Fails e :: rest) st = (Raised e, send st) /\
     slept (send st) = slept st).
Proof.
  split; [|split].
  - intros Hi. split; [|reflexivity].
    rewrite (chat_loop_raise _ _ _ _ _ _ _ (Fails e) rest st e (send st) eq_refl).
    now rewrite Hi.
  - intros Hi Ho.
    assert (Hstep : forall rest0 st0,
               chat_loop limit (Fails e :: rest0) st0
               = chat_loop limit rest0 (backoff limit (send st0))).
    { intros rest0 st0.
      rewrite (chat_loop_raise _ _ _ _ _ _ _ (Fails e) rest0 st0 e (send st0) eq_refl).
      now rewrite Hi, Ho. }
    split; [apply Hstep|]. split; [reflexivity|]. split; [reflexivity|]. split.
    + intros n. revert st. induction n as [|n IH]; intros st; [reflexivity|].
      cbn [repeat]. rewrite Hstep. apply IH.
    + intros script st0 Hr.
      apply chat_loop_never_raises_transient in Hr. destruct Hr; congruence.
  - intros Ho. split; [|reflexivity].
    rewrite (chat_loop_raise _ _ _ _ _ _ _ (Fails e) rest st e (send st) eq_refl).
    rewrite Ho. now destruct (is_invalid_request e).
Qed.

(** A call that returns a value reached exactly one capability, with the
    decoded object as its keyword arguments. *)
Lemma call_function_returns function_id function_args calls v :
  call_function self h function_id function_args = (calls, Return v) ->
  exists owner name kwargs,
    split_max dash function_id 2 = [owner; name] /\
    function_args = JObj kwargs /\
    calls = [mkInvocation owner name kwargs].
Proof.
  unfold call_function.
  destruct (split_max dash function_id 2) as [|owner [|name [|]]]; try discriminate.
  destruct (get_engine h self) as [[e ms]|]; [|discriminate].
  destruct (get_dict h (tool_chest e)) as [chest|]; [|discriminate].
  destruct (dict_get chest owner) as [o|]; [|discriminate].
  destruct (getattr h o name) as [[f|]|]; [| |discriminate].
  all: destruct function_args; try discriminate.
  intros [= <- _]. now exists owner, name, fields.
Qed.

(** C9, amended: when the endpoint answers with a tool call once and then
    with plain content, and the capability returns [v], the loop calls exactly
    one capability, with the decoded arguments as keywords; it appends
    exactly two messages, the assistant's tool-call message and then a
    function message carrying [v]; and it returns one [ChatResponse] with
    the trimmed content and the completion tokens of the second response.
    The second request carries the grown conversation. *)
Theorem tool_call_round_trip limit st r1 m1 more1 fc function_args calls v
        r2 m2 more2 content rest :
  choices r1 = m1 :: more1 ->
  rm_function_call m1 = Some fc ->
  json_loads (fc_arguments fc) = Return function_args ->
  call_function self h (fc_name fc) function_args = (calls, Return v) ->
  choices r2 = m2 :: more2 ->
  rm_function_call m2 = None ->
  rm_content m2 = Some content ->
  let grown :=
    messages st ++ [ResponseMessage m1; FunctionMessage (fc_name fc) v] in
  chat_loop limit (Responds r1 :: Responds r2 :: rest) st =
    (Returned (mkChatResponse (strip content) (completion_tokens r2)),
     mkLoop grown (delay st) (slept st)
            (sent st ++ [request (messages st) opts_functions;
                         request grown opts_functions])
            (invoked st ++ calls)) /\
  exists owner name kwargs,
    function_args = JObj kwargs /\ calls = [mkInvocation owner name kwargs].
Proof.
  intros Hc1 Hf1 Hj Hcall Hc2 Hf2 Hcont grown. split.
  - cbn [Engine.chat_loop Engine.attempt].
    rewrite Hc1, Hf1, Hj. cbn [Engine.send messages]. rewrite Hcall.
    cbn [Engine.chat_loop Engine.attempt]. rewrite Hc2, Hf2, Hcont.
    unfold Engine.send. cbn [messages delay slept sent invoked].
    now rewrite <- app_assoc.
  - apply call_function_returns in Hcall as (owner & name & kwargs & _ & Ha & Hcalls).
    now exists owner, name, kwargs.
Qed.

End LoopProperties.

(** C9 fails as stated when the capability itself raises a provider
    error: the [except] clause of the loop catches it, sleeps and sends the
    unchanged conversation again.  The endpoint has answered with one tool
    call and then with content, one capability was called, the loop returns
    a [ChatResponse], but no message was appended. *)
Lemma throttled_capability_appends_nothing :
  fst Samples.throttled_run
    = Engine.Returned (Engine.mkChatResponse "The answer is forty-two." 9) /\
  Engine.invoked (snd Samples.throttled_run)
    = [Engine.mkInvocation "kb" "lookup" []] /\
  Engine.slept (snd Samples.throttled_run) = [2%Z] /\
  Engine.messages (snd Samples.throttled_run) = Samples.conversation /\
  length (Engine.messages (snd Samples.throttled_run))
    <> length Samples.conversation + 2.
Proof. repeat split. discriminate. Qed.

(* ================================================================== *)
(** * Properties of the registry, the runner and the aggregator *)
(* ================================================================== *)

Section EngineProperties.
Import Py Engine Samples.

(** C6: publishing and invoking agree on the qualified name.  For an
    owner [owner] of the tool chest and a schema-bearing method [name] of
    it, neither containing ['-'], the collected schemas contain the
    method's schema renamed [owner-name]; splitting that name gives back
    [owner] and [name]; and calling it looks the method up under that owner
    and name and calls it with the argument object as keywords, so that
    whatever the method raises is what the call raises. *)
Theorem publish_then_invoke self h e methods chest owner o name f sc kwargs :
  get_object h self = Some (EngineObj e methods) ->
  schemas e = None ->
  get_dict h (tool_chest e) = Some chest ->
  dict_get chest owner = Some o ->
  dict_get (members h o) name = Some f ->
  fn_schema f = Some sc ->
  s_name sc = name ->
  lacks dash owner = true ->
  lacks dash name = true ->
  exists found h',
    functions self h = Return (found, h') /\
    In (mkSchema (owner ++ String dash name) (s_description sc)
                 (s_properties sc) (s_required sc)) found /\
    split_max dash (owner ++ String dash name) 2 = [owner; name] /\
    call_function self h' (owner ++ String dash name) (JObj kwargs) =
      ([mkInvocation owner name kwargs], await_call f kwargs) /\
    (forall err, fn_body f kwargs = Raise err ->
                 await_call f kwargs = Raise err).
Proof.
  intros Ho Hs Hd Hown Hm Hsc Hname Hlo Hln.
  eexists _, _. split; [eapply functions_fresh; eassumption|].
  pose proof (split_max_pair dash owner name Hlo Hln) as Hsplit.
  split; [|split; [exact Hsplit|split]].
  - rewrite <- Hname.
    apply (collect_schemas_In h chest (dict_keys chest) owner o name f sc);
      try assumption.
    + eapply dict_get_in_keys; eassumption.
    + now apply dict_get_In.
  - unfold call_function, get_engine. rewrite Hsplit.
    rewrite get_object_set_same
      by (apply nth_error_Some; unfold get_object in Ho; congruence).
    cbn [tool_chest]. unfold get_dict, set_object. cbn [dicts].
    unfold get_dict in Hd. rewrite Hd, Hown.
    fold (set_object h self
            (EngineObj (mkEngine (model_name e) (temperature e) (max_delay e)
                                 (concurrency_limit e) (tool_chest e) (prompt e)
                                 (Some (collect_schemas h chest (dict_keys chest))))
                       methods)).
    rewrite (getattr_set_engine h self e _ methods o name Ho).
    now rewrite (getattr_method h o name f Hm).
  - intros err Herr. unfold await_call. now rewrite Herr.
Qed.

(** A qualified name with a second ['-'] splits into three parts and the
    call fails before any lookup. *)
Example call_function_extra_dash :
  call_function 1 engine_store "kb-look-up" (JObj [])
  = ([], Raise (ValueError "wrong number of values to unpack")).
Proof. reflexivity. Qed.

(** The decorator names the schema after the function. *)
Lemma json_schema_name description params func :
  exists sc, fn_schema (json_schema description params func) = Some sc /\
             s_name sc = fn_name func.
Proof.
  unfold json_schema. destruct (schema_params params [] []) as [properties required].
  eexists. split; reflexivity.
Qed.






(** C5: [arun] on a list of [n] inputs.  Whatever the order in which the
    coroutines finish, a value it returns has exactly [n] elements, and its
    [i]-th element is what the loop on the [i]-th input settled as: its
    [ChatResponse], or the exception it raised, so that a failure stays in
    its own position and the other loops are carried through.  And it does
    return once every coroutine has settled and finished. *)
Theorem arun_preserves_order json_loads self inputs order h results :
  (fst (arun_list json_loads self inputs order h) = Some results ->
   length results = length inputs /\
   forall i x script,
     nth_error inputs i = Some (x, script) ->
     exists r,
       nth_error results i = Some r /\
       settle (fst (fst (chat_one_shot json_loads self
                           (user_message_only (input_text x)) script
                           (store_before json_loads self inputs i h)))) = Some r) /\
  ((forall i, i < length inputs -> In i order) ->
   fst (run_tasks json_loads self inputs h) = map Some results ->
   fst (arun_list json_loads self inputs order h) = Some results).
Proof.
  split.
  - intros Hret.
    assert (Hsettled : fst (run_tasks json_loads self inputs h) = map Some results).
    { unfold arun_list in Hret.
      destruct (run_tasks json_loads self inputs h) as [tasks h'].
      cbn [fst] in *. now apply gather_returns_tasks with (order := order). }
    split.
    + rewrite <- (run_tasks_length json_loads self inputs h), Hsettled.
      now rewrite length_map.
    + intros i x script E.
      pose proof (run_tasks_nth json_loads self inputs h i x script E) as Hn.
      rewrite Hsettled, nth_error_map in Hn.
      destruct (nth_error results i) as [r|]; [|discriminate].
      injection Hn as Hn. now exists r.
  - intros Hall Hsettled.
    assert (Hlen : length results = length inputs).
    { rewrite <- (run_tasks_length json_loads self inputs h), Hsettled.
      now rewrite length_map. }
    unfold arun_list.
    destruct (run_tasks json_loads self inputs h) as [tasks h'].
    cbn [fst] in *. subst tasks. apply gather_all_settled.
    intros i Hi. apply Hall. lia.
Qed.


(** One failure between two successes. *)
Example combine_partial_failure r1 e r3 :
  is_exception e = true ->
  combine [Success r1; Failure e; Success r3] =
  Return (mkChatResponse (text r1 ++ String nl (text r3))
                         (token_count r1 + token_count r3)).
Proof.
  intros He. unfold combine. cbn [combine_loop]. rewrite He. cbn.
  do 2 f_equal; lia.
Qed.


End EngineProperties.

(* ================================================================== *)
(** * Properties of the chunker *)
(* ================================================================== *)

Section ChunkerProperties.
Import Py Chunker.
Local Open Scope string_scope.
Local Open Scope list_scope.

(** C2, as the code behaves for overlap [0]: the slice
    [temp_paragraphs[-0:]] is the whole buffer, so after a limit split
    every paragraph of the emitted chunk is carried into the next one.  On
    the text of the two paragraphs [a] and [b] with a limit of one token,
    the second chunk starts with the paragraph [a] of the first. *)
Theorem overlap_zero_carries_whole_buffer :
  (forall temp, retained 0 temp = temp) /\
  chunk_buffers char_tokens 1 (lines ["a"; "b"]) 0 = [["a"]; ["a"; "b"]] /\
  chunk_paragraphs char_tokens 1 (lines ["a"; "b"]) 0 = ["a"; lines ["a"; "b"]].
Proof. split; [exact retained_zero | split; reflexivity]. Qed.

(** C3, as the code behaves: the buffer that follows a limit split is the
    retained paragraphs plus the new one, and is not checked against the
    limit.  With the default overlap [0] and a limit of one token, the
    second chunk of [a], [b] holds two paragraphs and more than one token;
    with overlap [1] and a limit of three tokens, the second chunk of [a],
    [bb], [cc] holds two paragraphs and four tokens. *)
Theorem seeded_chunk_exceeds_limit :
  chunk_buffers char_tokens 1 (lines ["a"; "b"]) 0 = [["a"]; ["a"; "b"]] /\
  (1 < sum_tokens char_tokens ["a"; "b"])%Z /\
  (1 < Z.of_nat (char_tokens (render ["a"; "b"])))%Z /\
  chunk_buffers char_tokens 3 (lines ["a"; "bb"; "cc"]) 1
    = [["a"; "bb"]; ["bb"; "cc"]] /\
  (3 < sum_tokens char_tokens ["bb"; "cc"])%Z /\
  (3 < Z.of_nat (char_tokens (render ["bb"; "cc"])))%Z.
Proof. repeat split. Qed.

(** Three paragraphs of twelve characters, a limit that splits after the
    first, overlap [1]. *)
Example overlap_pattern :
  chunk_paragraphs char_tokens 12
    (lines ["Paragraph A."; "Paragraph B."; "Paragraph C."]) 1
  = ["Paragraph A.";
     lines ["Paragraph A."; "Paragraph B."];
     lines ["Paragraph B."; "Paragraph C."]].
Proof. reflexivity. Qed.

(** A first paragraph over the limit: the empty buffer is emitted first. *)
Example over_limit_first_paragraph :
  chunk_paragraphs char_tokens 3 (lines ["aaaa"; "bb"]) 1
  = [""; "aaaa"; lines ["aaaa"; "bb"]].
Proof. reflexivity. Qed.

(** C4 fails as stated: a text that ends with a newline has an empty
    last paragraph, which trimming removes from the chunk. *)
Lemma trimming_breaks_round_trip :
  rejoin 1 (chunk_paragraphs char_tokens 10 (lines ["a"; ""]) 1)
  <> split nl (lines ["a"; ""]).
Proof. vm_compute. discriminate. Qed.

(** C4, amended: for a positive overlap [k], a text whose paragraphs are
    non-empty and neither start nor end with a blank character, and whose
    first paragraph fits the limit, the chunk list is not empty, and
    splitting the chunks on newlines, dropping from each chunk after the
    first its first [min k (size of the previous chunk)] paragraphs and
    concatenating gives back exactly the paragraphs of the text. *)
Theorem chunk_round_trip encode_len chunk_size text k :
  (0 < k)%Z ->
  Forall tidy (split nl text) ->
  (Z.of_nat (encode_len (hd EmptyString (split nl text))) <= chunk_size)%Z ->
  chunk_paragraphs encode_len chunk_size text k <> [] /\
  rejoin k (chunk_paragraphs encode_len chunk_size text k) = split nl text.
Proof.
  intros Hk Htidy Hfit. split; [apply chunk_paragraphs_not_nil|].
  rewrite chunk_paragraphs_render, rejoin_faithful.
  - now apply rejoin_chunk_buffers.
  - now apply chunk_buffers_faithful.
Qed.

End ChunkerProperties.

(* ================================================================== *)
(** * Worked examples *)
(* ================================================================== *)

Section Examples.
Import Py Chunker Engine Samples.
Local Open Scope string_scope.
Local Open Scope list_scope.

Lemma chunk_round_trip_witness :
  (0 < 1)%Z /\
  Forall tidy (split nl (lines ["a"; "bb"; "cc"])) /\
  (Z.of_nat (char_tokens (hd "" (split nl (lines ["a"; "bb"; "cc"])))) <= 3)%Z /\
  chunk_paragraphs char_tokens 3 (lines ["a"; "bb"; "cc"]) 1 <> [] /\
  rejoin 1 (chunk_paragraphs char_tokens 3 (lines ["a"; "bb"; "cc"]) 1)
    = ["a"; "bb"; "cc"].
Proof.
  assert (Hk : (0 < 1)%Z) by reflexivity.
  assert (Ht : Forall tidy (split nl (lines ["a"; "bb"; "cc"])))
    by (repeat constructor).
  assert (Hf : (Z.of_nat (char_tokens (hd "" (split nl (lines ["a"; "bb"; "cc"])))) <= 3)%Z)
    by (vm_compute; discriminate).
  repeat split; try assumption;
    apply (chunk_round_trip char_tokens 3 (lines ["a"; "bb"; "cc"]) 1 Hk Ht Hf).
Defined.

Lemma retry_policy_witness :
  fst (sample_loop engine_store
         [Fails (InvalidRequestError "bad schema"); Responds answer]
         (initial_state conversation))
    = Raised (InvalidRequestError "bad schema") /\
  fst (sample_loop engine_store [rate_limited; Responds answer]
         (initial_state conversation))
    = fst (sample_loop engine_store [Responds answer]
             (backoff 10 (send "gpt-4" (QArith_base.Qmake 0 1) None
                               (initial_state conversation)))) /\
  fst (sample_loop engine_store [Fails (KeyError "choices"); Responds answer]
         (initial_state conversation))
    = Raised (KeyError "choices").
Proof.
  pose (policy := retry_policy loads_empty_object 1 engine_store "gpt-4"
                               (QArith_base.Qmake 0 1) None 10).
  split; [|split].
  - exact (f_equal fst
             (proj1 (proj1 (policy (InvalidRequestError "bad schema")
                                   [Responds answer] (initial_state conversation))
                           eq_refl))).
  - exact (f_equal fst
             (proj1 (proj1 (proj2 (policy (OpenAIError "rate limit")
                                          [Responds answer]
                                          (initial_state conversation)))
                           eq_refl eq_refl))).
  - exact (f_equal fst
             (proj1 (proj2 (proj2 (policy (KeyError "choices")
                                          [Responds answer]
                                          (initial_state conversation)))
                           eq_refl))).
Defined.

Lemma tool_call_round_trip_witness :
  chat_loop loads_empty_object 1 engine_store "gpt-4" (QArith_base.Qmake 0 1) None 10
            [Responds tool_call; Responds answer] (initial_state conversation)
  = (Returned (mkChatResponse "The answer is forty-two." 9),
     mkLoop (conversation
             ++ [ResponseMessage (mkResponseMessage None
                                    (Some (mkFunctionCall "kb-lookup" "{}")));
                 FunctionMessage "kb-lookup" "forty-two"])
            1 []
            [mkRequest "gpt-4" (QArith_base.Qmake 0 1) conversation None;
             mkRequest "gpt-4" (QArith_base.Qmake 0 1)
                       (conversation
                        ++ [ResponseMessage (mkResponseMessage None
                                               (Some (mkFunctionCall "kb-lookup" "{}")));
                            FunctionMessage "kb-lookup" "forty-two"])
                       None]
            [mkInvocation "kb" "lookup" []]).
Proof.
  exact (proj1 (tool_call_round_trip
                  loads_empty_object 1 engine_store "gpt-4" (QArith_base.Qmake 0 1)
                  None 10 (initial_state conversation)
                  tool_call
                  (mkResponseMessage None (Some (mkFunctionCall "kb-lookup" "{}")))
                  [] (mkFunctionCall "kb-lookup" "{}") (JObj [])
                  [mkInvocation "kb" "lookup" []] "forty-two"
                  answer
                  (mkResponseMessage (Some "  The answer is forty-two. ") None)
                  [] "  The answer is forty-two. " []
                  eq_refl eq_refl eq_refl eq_refl eq_refl eq_refl eq_refl)).
Defined.

Lemma publish_then_invoke_witness :
  exists found h',
    functions 1 engine_store = Return (found, h') /\
    In (mkSchema "kb-lookup" "Look a fact up"
                 [("topic", mkProperty "string" "")] (Some ["topic"])) found /\
    split_max dash "kb-lookup" 2 = ["kb"; "lookup"] /\
    call_function 1 h' "kb-lookup" (JObj [])
      = ([mkInvocation "kb" "lookup" []], Return "forty-two") /\
    (forall err, fn_body lookup [] = Raise err -> await_call lookup [] = Raise err).
Proof.
  exact (publish_then_invoke
           1 engine_store
           (mkEngine "gpt-3.5-turbo-16k" (QArith_base.Qmake 1 2) 10 3 0
                     (Some "You are terse.") None)
           [("recap", recap)] [("kb", 0); ("self", 1)] "kb" 0 "lookup" lookup
           (mkSchema "lookup" "Look a fact up"
                     [("topic", mkProperty "string" "")] (Some ["topic"]))
           []
           eq_refl eq_refl eq_refl eq_refl eq_refl eq_refl eq_refl eq_refl eq_refl).
Defined.



Lemma arun_preserves_order_witness :
  fst (arun_list loads_empty_object 1 batch [2; 0; 1] engine_store)
  = Some [Success (mkChatResponse "The answer is forty-two." 9);
          Failure (InvalidRequestError "bad schema");
          Success (mkChatResponse "The answer is forty-two." 9)] /\
  length [Success (mkChatResponse "The answer is forty-two." 9);
          Failure (InvalidRequestError "bad schema");
          Success (mkChatResponse "The answer is forty-two." 9)] = length batch.
Proof.
  assert (Hall : forall i, i < length batch -> In i [2; 0; 1]).
  { intros [|[|[|i]]] Hi; cbn [In]; auto.
    exfalso. cbn [length batch] in Hi. lia. }
  pose (aligned := arun_preserves_order
                     loads_empty_object 1 batch [2; 0; 1] engine_store
                     [Success (mkChatResponse "The answer is forty-two." 9);
                      Failure (InvalidRequestError "bad schema");
                      Success (mkChatResponse "The answer is forty-two." 9)]).
  assert (Hret := proj2 aligned Hall eq_refl).
  split; [exact Hret | exact (proj1 (proj1 aligned Hret))].
Defined.

End Examples.

(* ================================================================== *)
(** * Further properties of the registry *)
(* ================================================================== *)

Section RegistryExtras.
Import Py Engine Samples MoreSamples.
Local Open Scope string_scope.
Local Open Scope list_scope.

Lemma split_max_zero sep s : split_max sep s 0 = [s].
Proof. now destruct s. Qed.

Lemma split_max_lacks sep s : forall n, lacks sep s = true -> split_max sep s n = [s].
Proof.
  induction s as [|c s IH]; intros n H; [reflexivity|].
  cbn [lacks] in H. apply andb_prop in H as [Hc Hs]. apply negb_true_iff in Hc.
  destruct n as [|n]; [reflexivity|].
  cbn [split_max]. now rewrite Hc, (IH (S n) Hs).
Qed.

Lemma lacks_app_sep sep a b : lacks sep (a ++ String sep b) = false.
Proof.
  induction a as [|c a IH]; cbn [String.append lacks].
  - now rewrite Ascii.eqb_refl.
  - rewrite IH. apply andb_false_r.
Qed.

Lemma split_max_one_cut sep s :
  lacks sep s = false -> exists a b, split_max sep s 1 = [a; b].
Proof.
  induction s as [|c s IH]; [discriminate|].
  cbn [lacks split_max]. destruct (Ascii.eqb c sep) eqn:E.
  - intros _. exists "", s. now rewrite split_max_zero.
  - cbn [negb andb]. intros H. destruct (IH H) as (a & b & ->).
    now exists (String c a), b.
Qed.

(** A second separator, in the owner's half, gives three parts. *)
Lemma split_max_two_cuts sep owner name :
  lacks sep owner = false ->
  exists a b c, split_max sep (owner ++ String sep name) 2 = [a; b; c].
Proof.
  induction owner as [|c owner IH]; [discriminate|].
  cbn [lacks String.append split_max]. destruct (Ascii.eqb c sep) eqn:E.
  - intros _.
    destruct (split_max_one_cut sep (owner ++ String sep name)
                (lacks_app_sep sep owner name)) as (a & b & ->).
    now exists "", a, b.
  - cbn [negb andb]. intros H. destruct (IH H) as (a & b & d & ->).
    now exists (String c a), b, d.
Qed.

Lemma owner_schemas_In_inv src_name methods : forall s,
  In s (owner_schemas src_name methods) ->
  exists name f sc,
    In (name, f) methods /\ fn_schema f = Some sc /\
    s = mkSchema (src_name ++ String dash (s_name sc)) (s_description sc)
                 (s_properties sc) (s_required sc).
Proof.
  induction methods as [|[k m] methods IH]; intros s Hin; [contradiction|].
  cbn [owner_schemas] in Hin. destruct (fn_schema m) as [sc|] eqn:E.
  - destruct Hin as [<-|Hin].
    + exists k, m, sc. repeat split; trivial. now left.
    + destruct (IH s Hin) as (name & f & sc' & H1 & H2 & H3).
      exists name, f, sc'. repeat split; trivial. now right.
  - destruct (IH s Hin) as (name & f & sc' & H1 & H2 & H3).
    exists name, f, sc'. repeat split; trivial. now right.
Qed.

Lemma collect_schemas_In_inv h chest keys : forall s,
  In s (collect_schemas h chest keys) ->
  exists owner o name f sc,
    dict_get chest owner = Some o /\ In (name, f) (members h o) /\
    fn_schema f = Some sc /\
    s = mkSchema (owner ++ String dash (s_name sc)) (s_description sc)
                 (s_properties sc) (s_required sc).
Proof.
  induction keys as [|k keys IH]; intros s Hin; [contradiction|].
  cbn [collect_schemas] in Hin. destruct (dict_get chest k) as [o|] eqn:E.
  - apply in_app_or in Hin as [Hin|Hin]; [|now apply IH].
    destruct (owner_schemas_In_inv _ _ _ Hin) as (name & f & sc & H1 & H2 & H3).
    now exists k, o, name, f, sc.
  - now apply IH.
Qed.

(** X1: on first use [__functions] publishes exactly the schema-bearing
    methods of the owners in the tool chest, each renamed [owner-name]:
    nothing else gets into the list. *)
Theorem functions_publishes_exactly self h e methods chest :
  get_object h self = Some (EngineObj e methods) ->
  schemas e = None ->
  get_dict h (tool_chest e) = Some chest ->
  exists found h',
    functions self h = Return (found, h') /\
    forall s,
      In s found <->
      exists owner o name f sc,
        dict_get chest owner = Some o /\ In (name, f) (members h o) /\
        fn_schema f = Some sc /\
        s = mkSchema (owner ++ String dash (s_name sc)) (s_description sc)
                     (s_properties sc) (s_required sc).
Proof.
  intros Ho Hs Hd. eexists _, _. split; [eapply functions_fresh; eassumption|].
  intros s. split.
  - apply collect_schemas_In_inv.
  - intros (owner & o & name & f & sc & H1 & H2 & H3 & ->).
    apply (collect_schemas_In h chest (dict_keys chest) owner o name f sc);
      trivial.
    eapply dict_get_in_keys; eassumption.
Qed.

(** X2: the schema list is computed once.  After [__functions] has
    returned, every later call returns the same list and leaves the store
    alone, whatever has happened to the tool chest or to the tools since. *)
Theorem functions_is_memoized self h found h1 :
  functions self h = Return (found, h1) ->
  forall h2,
    get_object h2 self = get_object h1 self ->
    functions self h2 = Return (found, h2).
Proof.
  unfold functions, get_engine.
  destruct (get_object h self) as [[ms|e ms]|] eqn:Ho; try discriminate.
  cbn [bind]. destruct (schemas e) as [cached|] eqn:Hs.
  - intros [= <- <-] h2 H2. rewrite H2, Ho. cbn [bind]. now rewrite Hs.
  - destruct (get_dict h (tool_chest e)) as [chest|]; [|discriminate].
    intros [= <- <-] h2 H2. rewrite H2.
    rewrite get_object_set_same
      by (apply nth_error_Some; unfold get_object in Ho; congruence).
    reflexivity.
Qed.

(** X3: an owner whose key contains ['-'] has its capabilities published
    but can never be called: the qualified name splits into three parts
    and unpacking them into two fails before any lookup. *)
Theorem dashed_owner_is_published_not_callable
        self h e methods chest owner o name f sc :
  get_object h self = Some (EngineObj e methods) ->
  schemas e = None ->
  get_dict h (tool_chest e) = Some chest ->
  dict_get chest owner = Some o ->
  dict_get (members h o) name = Some f ->
  fn_schema f = Some sc ->
  s_name sc = name ->
  lacks dash owner = false ->
  (exists found h',
     functions self h = Return (found, h') /\
     In (mkSchema (owner ++ String dash name) (s_description sc)
                  (s_properties sc) (s_required sc)) found) /\
  forall h' function_args,
    call_function self h' (owner ++ String dash name) function_args
    = ([], Raise (ValueError "wrong number of values to unpack")).
Proof.
  intros Ho Hs Hd Hown Hm Hsc Hname Hlo. split.
  - eexists _, _. split; [eapply functions_fresh; eassumption|].
    rewrite <- Hname.
    apply (collect_schemas_In h chest (dict_keys chest) owner o name f sc);
      try assumption.
    + eapply dict_get_in_keys; eassumption.
    + now apply dict_get_In.
  - intros h' function_args. unfold call_function.
    destruct (split_max_two_cuts dash owner name Hlo) as (a & b & c & ->).
    reflexivity.
Qed.

(** X4: how [__call_function] resolves a name.  A name without ['-']
    cannot be unpacked; an owner missing from the tool chest is a
    [KeyError]; a name the owner has no attribute for is an
    [AttributeError]; arguments that are not a JSON object are a
    [TypeError]; an attribute that is not callable, such as a field of the
    engine, is a [TypeError] too; in each of these cases nothing has been
    called.  Whatever else [getattr] finds is called with the arguments as
    keywords, whether it was published or not. *)
Theorem call_function_resolution_errors
        self h e methods chest owner name function_args :
  get_object h self = Some (EngineObj e methods) ->
  get_dict h (tool_chest e) = Some chest ->
  lacks dash owner = true ->
  lacks dash name = true ->
  call_function self h owner function_args
    = ([], Raise (ValueError "wrong number of values to unpack")) /\
  (dict_get chest owner = None ->
   call_function self h (owner ++ String dash name) function_args
     = ([], Raise (KeyError owner))) /\
  (forall o,
      dict_get chest owner = Some o ->
      getattr h o name = None ->
      call_function self h (owner ++ String dash name) function_args
        = ([], Raise (AttributeError name))) /\
  (forall o found,
      dict_get chest owner = Some o ->
      getattr h o name = Some found ->
      (forall kwargs, function_args <> JObj kwargs) ->
      call_function self h (owner ++ String dash name) function_args
        = ([], Raise (TypeError "argument after ** must be a mapping"))) /\
  (forall o kwargs,
      dict_get chest owner = Some o ->
      getattr h o name = Some Plain ->
      function_args = JObj kwargs ->
      call_function self h (owner ++ String dash name) function_args
        = ([], Raise (TypeError "object is not callable"))) /\
  (forall o f kwargs,
      dict_get chest owner = Some o ->
      getattr h o name = Some (Callable f) ->
      function_args = JObj kwargs ->
      call_function self h (owner ++ String dash name) function_args
        = ([mkInvocation owner name kwargs], await_call f kwargs)) /\
  (In name engine_fields ->
   dict_get methods name = None ->
   getattr h self name = Some Plain).
Proof.
  intros Ho Hd Hlo Hln.
  pose proof (split_max_pair dash owner name Hlo Hln) as Hsplit.
  split; [|split; [|split; [|split; [|split; [|split]]]]].
  - unfold call_function. now rewrite (split_max_lacks dash owner 2 Hlo).
  - intros Hown. unfold call_function, get_engine.
    now rewrite Hsplit, Ho, Hd, Hown.
  - intros o Hown Hm. unfold call_function, get_engine.
    now rewrite Hsplit, Ho, Hd, Hown, Hm.
  - intros o found Hown Hm Hargs. unfold call_function, get_engine.
    rewrite Hsplit, Ho, Hd, Hown, Hm.
    destruct function_args; try reflexivity. now destruct (Hargs fields).
  - intros o kwargs Hown Hm ->. unfold call_function, get_engine.
    now rewrite Hsplit, Ho, Hd, Hown, Hm.
  - intros o f kwargs Hown Hm ->. unfold call_function, get_engine.
    now rewrite Hsplit, Ho, Hd, Hown, Hm.
  - intros Hin Hm. unfold getattr, members. rewrite Ho, Hm.
    assert (Hf : existsb (String.eqb name) engine_fields = true).
    { apply existsb_exists. exists name. split; [exact Hin | apply String.eqb_refl]. }
    now rewrite Hf.
Qed.

End RegistryExtras.

(* ================================================================== *)
(** * Further properties of the retry loop *)
(* ================================================================== *)

Section LoopExtras.
Import Py Engine Samples MoreSamples.
Local Open Scope string_scope.
Local Open Scope list_scope.

Variable json_loads : string -> pyres json.
Variable self : oref.
Variable h : heap.
Variable opts_model : string.
Variable opts_temperature : Q.
Variable opts_functions : option (list schema).
Variable limit : Z.

Local Abbreviation chat_loop :=
  (chat_loop json_loads self h opts_model opts_temperature opts_functions limit).
Local Abbreviation attempt := (attempt json_loads self h).
Local Abbreviation send := (send opts_model opts_temperature opts_functions).
Local Abbreviation backoff := (backoff limit).
Local Abbreviation tool_round := (tool_round json_loads self h).
Local Abbreviation tool_rounds := (tool_rounds json_loads self h).

Lemma call_function_calls function_id function_args :
  length (fst (call_function self h function_id function_args)) <= 1.
Proof.
  unfold call_function.
  destruct (split_max dash function_id 2) as [|a [|b [|]]]; cbn; try lia.
  destruct (get_engine h self) as [[e ms]|]; cbn; try lia.
  destruct (get_dict h (tool_chest e)); cbn; try lia.
  destruct (dict_get _ a); cbn; try lia.
  destruct (getattr _ _ b) as [found|]; cbn; try lia.
  destruct function_args; cbn; try lia.
  destruct found; cbn; lia.
Qed.

(** What one round of [try] can change: the calls made, and two messages
    when a tool call went through. *)
Lemma attempt_frame ev st r st' :
  attempt ev st = (r, st') ->
  delay st' = delay st /\ slept st' = slept st /\ sent st' = sent st /\
  exists calls,
    invoked st' = invoked st ++ calls /\ length calls <= 1 /\
    match r with
    | Return None =>
        length calls = 1 /\
        exists m name content,
          messages st' = messages st ++ [ResponseMessage m; FunctionMessage name content]
    | _ => messages st' = messages st
    end.
Proof.
  unfold Engine.attempt.
  assert (Hnil : forall (r0 : pyres (option ChatResponse)),
             match r0 with Return None => False | _ => True end ->
             (r0, st) = (r, st') ->
             delay st' = delay st /\ slept st' = slept st /\ sent st' = sent st /\
             exists calls,
               invoked st' = invoked st ++ calls /\ length calls <= 1 /\
               match r with
               | Return None =>
                   length calls = 1 /\
                   exists m name content,
                     messages st' = messages st
                                    ++ [ResponseMessage m; FunctionMessage name content]
               | _ => messages st' = messages st
               end).
  { intros r0 Hr0 [= <- <-]. repeat split. exists []. rewrite app_nil_r.
    repeat split; [cbn; lia|]. destruct r0 as [[?|]|]; trivial. contradiction. }
  destruct ev as [response|e]; [|now apply Hnil].
  destruct (choices response) as [|m more]; [now apply Hnil|].
  destruct (rm_function_call m) as [fc|].
  - destruct (json_loads (fc_arguments fc)) as [function_args|e]; [|now apply Hnil].
    pose proof (call_function_calls (fc_name fc) function_args) as Hlen.
    destruct (call_function self h (fc_name fc) function_args) as [calls [v|e]] eqn:Hcall;
      cbn [fst] in Hlen.
    + intros [= <- <-]. cbn [delay slept sent invoked messages].
      repeat split. exists calls. repeat split; trivial.
      * apply call_function_returns in Hcall as (? & ? & ? & _ & _ & ->). reflexivity.
      * now exists m, (fc_name fc), v.
    + intros [= <- <-]. cbn [delay slept sent invoked messages].
      repeat split. exists calls. now repeat split.
  - destruct (rm_content m); now apply Hnil.
Qed.

(** When an event is a round: a tool call whose arguments decode and
    whose capability returns. *)
Lemma tool_round_spec ev m name content :
  tool_round ev = Some (m, name, content) <->
  exists response more fc function_args calls,
    ev = Responds response /\
    choices response = m :: more /\
    rm_function_call m = Some fc /\
    name = fc_name fc /\
    json_loads (fc_arguments fc) = Return function_args /\
    call_function self h (fc_name fc) function_args = (calls, Return content).
Proof.
  unfold Engine.tool_round. split.
  - destruct ev as [response|e]; [|discriminate].
    destruct (choices response) as [|m0 more] eqn:Hc; [discriminate|].
    destruct (rm_function_call m0) as [fc|] eqn:Hf; [|discriminate].
    destruct (json_loads (fc_arguments fc)) as [function_args|e] eqn:Hj; [|discriminate].
    destruct (call_function self h (fc_name fc) function_args) as [calls [v|e]] eqn:Hcall;
      cbn [snd]; [|discriminate].
    intros [= -> <- <-].
    now exists response, more, fc, function_args, calls.
  - intros (response & more & fc & function_args & calls
            & -> & Hc & Hf & -> & Hj & Hcall).
    now rewrite Hc, Hf, Hj, Hcall.
Qed.

(** One pass through [try], by what the event is. *)
Lemma attempt_round ev st :
  match tool_round ev with
  | Some r =>
      exists calls,
        attempt ev st
        = (Return None,
           mkLoop (messages st ++ round_messages r) (delay st) (slept st) (sent st)
                  (invoked st ++ calls))
  | None =>
      fst (attempt ev st) <> Return None /\
      messages (snd (attempt ev st)) = messages st
  end.
Proof.
  unfold Engine.tool_round, Engine.attempt.
  destruct ev as [response|e]; [|now split].
  destruct (choices response) as [|m more]; [now split|].
  destruct (rm_function_call m) as [fc|].
  - destruct (json_loads (fc_arguments fc)) as [function_args|e]; [|now split].
    destruct (call_function self h (fc_name fc) function_args) as [calls [v|e]];
      cbn [snd fst]; [|now split].
    exists calls. reflexivity.
  - destruct (rm_content m); now split.
Qed.

(** X5: the conversation only grows, and only by completed tool rounds.
    A run consumes a prefix of the endpoint's answers, one request each;
    the messages it leaves are those it started with followed, in order,
    by the two messages of every consumed event that is a round: a tool
    call whose arguments decoded and whose capability returned, with the
    assistant's message first and then the function message carrying what
    the capability returned.  Failed calls, provider errors, retries and
    the final answer add nothing. *)
Theorem conversation_grows_by_tool_rounds script : forall st,
  (exists consumed remaining,
      script = consumed ++ remaining /\
      length (sent (snd (chat_loop script st)))
        = length (sent st) + length consumed /\
      messages (snd (chat_loop script st))
        = messages st ++ flat_map round_messages (tool_rounds consumed) /\
      (fst (chat_loop script st) = Awaiting -> remaining = [])) /\
  ((forall ev, In ev script -> tool_round ev = None) ->
   messages (snd (chat_loop script st)) = messages st) /\
  (forall ev m name content,
      tool_round ev = Some (m, name, content) <->
      exists response more fc function_args calls,
        ev = Responds response /\
        choices response = m :: more /\
        rm_function_call m = Some fc /\
        name = fc_name fc /\
        json_loads (fc_arguments fc) = Return function_args /\
        call_function self h (fc_name fc) function_args = (calls, Return content)).
Proof.
  assert (Hmain : forall st,
             exists consumed remaining,
               script = consumed ++ remaining /\
               length (sent (snd (chat_loop script st)))
                 = length (sent st) + length consumed /\
               messages (snd (chat_loop script st))
                 = messages st ++ flat_map round_messages (tool_rounds consumed) /\
               (fst (chat_loop script st) = Awaiting -> remaining = [])).
  { induction script as [|ev rest IH]; intros st.
    - exists [], []. cbn. rewrite app_nil_r. repeat split. lia.
    - cbn [Engine.chat_loop].
      assert (Hstop : forall (o : outcome) st1,
                 o <> Awaiting ->
                 sent st1 = sent (send st) ->
                 messages st1 = messages st ->
                 tool_round ev = None ->
                 exists consumed remaining,
                   ev :: rest = consumed ++ remaining /\
                   length (sent (snd (o, st1)))
                     = length (sent st) + length consumed /\
                   messages (snd (o, st1))
                     = messages st ++ flat_map round_messages (tool_rounds consumed) /\
                   (fst (o, st1) = Awaiting -> remaining = [])).
      { intros o st1 Ho Hs Hm Hr. exists [ev], rest. cbn [snd fst].
        unfold Engine.tool_rounds. cbn [flat_map]. rewrite Hr, Hs, Hm.
        cbn [app flat_map]. rewrite app_nil_r. unfold Engine.send. cbn [sent].
        rewrite length_app. cbn [length].
        repeat split; first [lia | intros; contradiction]. }
      assert (Hgo : forall st1 extra,
                 length (sent st1) = S (length (sent st)) ->
                 messages st1 = messages st ++ flat_map round_messages extra ->
                 (match tool_round ev with Some r => [r] | None => [] end) = extra ->
                 exists consumed remaining,
                   ev :: rest = consumed ++ remaining /\
                   length (sent (snd (chat_loop rest st1)))
                     = length (sent st) + length consumed /\
                   messages (snd (chat_loop rest st1))
                     = messages st ++ flat_map round_messages (tool_rounds consumed) /\
                   (fst (chat_loop rest st1) = Awaiting -> remaining = [])).
      { intros st1 extra Hs Hm Hr.
        destruct (IH st1) as (consumed & remaining & H1 & H2 & H3 & H4).
        exists (ev :: consumed), remaining.
        split; [cbn [app]; now rewrite <- H1|]. rewrite H2, H3, Hs, Hm.
        unfold Engine.tool_rounds. cbn [flat_map]. rewrite Hr.
        rewrite flat_map_app, <- !app_assoc. cbn [length].
        repeat split; first [lia | exact H4]. }
      pose proof (attempt_round ev (send st)) as Hround.
      destruct (attempt ev (send st)) as [r st1] eqn:E.
      pose proof (attempt_frame _ _ _ _ E) as (_ & _ & Hsent & _).
      destruct (Engine.tool_round json_loads self h ev) as [round|] eqn:Hr.
      + destruct Hround as (calls & [= -> ->]).
        apply (Hgo _ [round]); cbn [sent messages flat_map]; trivial.
        * unfold Engine.send. cbn [sent]. rewrite length_app. cbn [length]. lia.
        * now rewrite app_nil_r.
      + cbn [fst snd] in Hround. destruct Hround as (Hnot & Hm).
        cbn [Engine.send messages] in Hm.
        destruct r as [[resp|]|e].
        * apply Hstop; trivial. discriminate.
        * now destruct Hnot.
        * destruct (is_invalid_request e); [apply Hstop; trivial; discriminate|].
          destruct (is_openai_error e); [|apply Hstop; trivial; discriminate].
          apply (Hgo _ []); cbn [Engine.backoff sent messages flat_map]; trivial.
          -- rewrite Hsent. unfold Engine.send. cbn [sent].
             rewrite length_app. cbn [length]. lia.
          -- now rewrite app_nil_r. }
  intros st. split; [apply Hmain|]. split; [|intros; apply tool_round_spec].
  intros Hnone.
  destruct (Hmain st) as (consumed & remaining & Hscript & _ & Hm & _).
  rewrite Hm.
  assert (Hrounds : tool_rounds consumed = []).
  { assert (Hin : forall ev, In ev consumed -> tool_round ev = None).
    { intros ev Hev. apply Hnone. rewrite Hscript. apply in_or_app. now left. }
    clear - Hin. induction consumed as [|ev consumed IH]; [reflexivity|].
    unfold Engine.tool_rounds. cbn [flat_map].
    rewrite (Hin ev) by now left. cbn [app].
    apply IH. intros ev' Hev'. apply Hin. now right. }
  rewrite Hrounds. cbn [flat_map]. apply app_nil_r.
Qed.

(** X6: the sleeps of any run, whatever happens between the failures:
    the [i]-th sleep the loop adds, counting from [0], lasts
    [min (2 * delay * 2^i) max_delay], so no sleep is longer than
    [max_delay]; [delay] itself is doubled once per sleep and never reset,
    not even by a tool call that went through. *)
Theorem sleeps_of_any_run script : forall st,
  exists n,
    n <= length script /\
    slept (snd (chat_loop script st))
      = slept st
        ++ map (fun i => Z.min (2 * (delay st * 2 ^ Z.of_nat i)) limit) (seq 0 n) /\
    delay (snd (chat_loop script st)) = (delay st * 2 ^ Z.of_nat n)%Z /\
    Forall (fun d => (d <= limit)%Z)
           (map (fun i => Z.min (2 * (delay st * 2 ^ Z.of_nat i)) limit) (seq 0 n)).
Proof.
  assert (Hcap : forall d n,
             Forall (fun x => (x <= limit)%Z)
                    (map (fun i => Z.min (2 * (d * 2 ^ Z.of_nat i)) limit) (seq 0 n))).
  { intros d n. apply Forall_forall. intros x Hx.
    apply in_map_iff in Hx as (i & <- & _). lia. }
  induction script as [|ev rest IH]; intros st.
  - exists 0. cbn. rewrite app_nil_r. repeat split; trivial; lia.
  - cbn [Engine.chat_loop].
    destruct (attempt ev (send st)) as [r st1] eqn:E.
    apply attempt_frame in E as (Hd & Hs & _).
    cbn [Engine.send delay slept] in Hd, Hs.
    assert (Hstop : forall o : outcome,
               exists n,
                 n <= length (ev :: rest) /\
                 slept (snd (o, st1))
                   = slept st
                     ++ map (fun i => Z.min (2 * (delay st * 2 ^ Z.of_nat i)) limit)
                            (seq 0 n) /\
                 delay (snd (o, st1)) = (delay st * 2 ^ Z.of_nat n)%Z /\
                 Forall (fun d => (d <= limit)%Z)
                        (map (fun i => Z.min (2 * (delay st * 2 ^ Z.of_nat i)) limit)
                             (seq 0 n))).
    { intros o. exists 0. cbn [snd seq map length]. rewrite Hs, Hd, app_nil_r.
      repeat split; trivial; cbn; lia. }
    destruct r as [[resp|]|e]; [apply Hstop| |].
    + destruct (IH st1) as (n & Hn & H1 & H2 & H3).
      exists n. rewrite H1, H2, Hs, Hd. repeat split; trivial. cbn [length]. lia.
    + destruct (is_invalid_request e); [apply Hstop|].
      destruct (is_openai_error e); [|apply Hstop].
      destruct (IH (backoff st1)) as (n & Hn & H1 & H2 & _).
      exists (S n). rewrite H1, H2. cbn [Engine.backoff delay slept].
      rewrite Hs, Hd. split; [cbn [length]; lia|]. split; [|split; [|apply Hcap]].
      * rewrite <- app_assoc. f_equal. cbn [seq map app]. f_equal.
        -- rewrite Z.pow_0_r. f_equal. lia.
        -- rewrite <- seq_shift, map_map. apply map_ext. intros k.
           rewrite Nat2Z.inj_succ, Z.pow_succ_r by lia. f_equal. lia.
      * rewrite Nat2Z.inj_succ, Z.pow_succ_r by lia. lia.
Qed.

(** X7: a run returns only from a plain content response: the
    [ChatResponse] it returns holds the trimmed content and the completion
    tokens of one response of the endpoint, the first choice of which
    carries no function call.  Tokens spent on earlier rounds are not
    counted. *)
Theorem returned_from_content_response script : forall st r,
  fst (chat_loop script st) = Returned r ->
  exists response m more content,
    In (Responds response) script /\
    choices response = m :: more /\
    rm_function_call m = None /\
    rm_content m = Some content /\
    r = mkChatResponse (strip content) (completion_tokens response).
Proof.
  induction script as [|ev rest IH]; intros st r; [discriminate|].
  cbn [Engine.chat_loop].
  destruct (attempt ev (send st)) as [[[resp|]|e] st1] eqn:E.
  - cbn [fst]. intros [= <-]. unfold Engine.attempt in E.
    destruct ev as [response|e]; [|discriminate].
    destruct (choices response) as [|m more] eqn:Hc; [discriminate|].
    destruct (rm_function_call m) as [fc|] eqn:Hf.
    + destruct (json_loads (fc_arguments fc)); [|discriminate].
      destruct (call_function self h (fc_name fc) a) as [calls [v|e]]; discriminate.
    + destruct (rm_content m) as [content|] eqn:Hcont; [|discriminate].
      injection E as <- _. exists response, m, more, content.
      repeat split; trivial. now left.
  - intros Hr. destruct (IH _ _ Hr) as (response & m & more & content & Hin & Hrest).
    exists response, m, more, content. split; [now right | exact Hrest].
  - destruct (is_invalid_request e); [discriminate|].
    destruct (is_openai_error e); [|discriminate].
    intros Hr. destruct (IH _ _ Hr) as (response & m & more & content & Hin & Hrest).
    exists response, m, more, content. split; [now right | exact Hrest].
Qed.

(** Two states that hold the same conversation and the same calls. *)
Lemma attempt_same_talk ev st1 st2 :
  messages st1 = messages st2 -> invoked st1 = invoked st2 ->
  fst (attempt ev st1) = fst (attempt ev st2) /\
  messages (snd (attempt ev st1)) = messages (snd (attempt ev st2)) /\
  invoked (snd (attempt ev st1)) = invoked (snd (attempt ev st2)).
Proof.
  intros Hm Hi. unfold Engine.attempt.
  destruct ev as [response|e]; [|now repeat split].
  destruct (choices response) as [|m more]; [now repeat split|].
  destruct (rm_function_call m) as [fc|].
  - destruct (json_loads (fc_arguments fc)) as [function_args|e]; [|now repeat split].
    destruct (call_function self h (fc_name fc) function_args) as [calls [v|e]];
      cbn [fst snd messages invoked]; now rewrite Hm, Hi.
  - destruct (rm_content m); now repeat split.
Qed.

Lemma chat_loop_same_talk script : forall st1 st2,
  messages st1 = messages st2 -> invoked st1 = invoked st2 ->
  fst (chat_loop script st1) = fst (chat_loop script st2) /\
  messages (snd (chat_loop script st1)) = messages (snd (chat_loop script st2)) /\
  invoked (snd (chat_loop script st1)) = invoked (snd (chat_loop script st2)).
Proof.
  induction script as [|ev rest IH]; intros st1 st2 Hm Hi; [now repeat split|].
  cbn [Engine.chat_loop].
  destruct (attempt_same_talk ev (send st1) (send st2) Hm Hi) as (Hr & Hm' & Hi').
  destruct (attempt ev (send st1)) as [r1 s1].
  destruct (attempt ev (send st2)) as [r2 s2].
  cbn [fst snd] in Hr, Hm', Hi'. subst r2.
  destruct r1 as [[resp|]|e]; [now repeat split | now apply IH |].
  destruct (is_invalid_request e); [now repeat split|].
  destruct (is_openai_error e); [|now repeat split].
  now apply IH.
Qed.

(** X8: a transient failure of the endpoint, wherever it falls in a run,
    changes neither the outcome, nor the conversation, nor the capabilities
    called: the run is the one without the failure, apart from the sleep,
    the doubled delay and the repeated request. *)
Theorem transient_failure_is_transparent pre e post : forall st,
  is_invalid_request e = false ->
  is_openai_error e = true ->
  fst (chat_loop (pre ++ Fails e :: post) st) = fst (chat_loop (pre ++ post) st) /\
  messages (snd (chat_loop (pre ++ Fails e :: post) st))
    = messages (snd (chat_loop (pre ++ post) st)) /\
  invoked (snd (chat_loop (pre ++ Fails e :: post) st))
    = invoked (snd (chat_loop (pre ++ post) st)).
Proof.
  induction pre as [|ev pre IH]; intros st Hi Ho.
  - cbn [app]. rewrite (chat_loop_raise _ _ _ _ _ _ _ (Fails e) post st e _ eq_refl).
    rewrite Hi, Ho. now apply chat_loop_same_talk.
  - cbn [app Engine.chat_loop].
    destruct (attempt ev (send st)) as [[[resp|]|e'] st1]; [now repeat split | now apply IH |].
    destruct (is_invalid_request e'); [now repeat split|].
    destruct (is_openai_error e'); [|now repeat split].
    now apply IH.
Qed.

End LoopExtras.

(* ================================================================== *)
(** * Further properties of the runner and of the decorator *)
(* ================================================================== *)

Section RunnerExtras.
Import Py Engine Samples MoreSamples.
Local Open Scope string_scope.
Local Open Scope list_scope.

(** X9: the input checks of [_chat_one_shot].  Without a [messages]
    argument, a call with no prompt at all, or with neither a user message
    nor additional messages, raises [ValueError] before anything else
    happens: no schema is collected, the store is unchanged and no request
    is sent. *)
Theorem chat_one_shot_rejects_incomplete_input
        json_loads self h e methods kw script :
  get_object h self = Some (EngineObj e methods) ->
  ck_messages kw = None ->
  (ck_prompt kw = None /\ prompt e = None) \/
  (ck_user_message kw = None /\ ck_additional_messages kw = None) ->
  chat_one_shot json_loads self kw script h
  = (Raised (ValueError
               "You must provide a user_message, message, or additional_messages"),
     initial_state [], h).
Proof.
  intros Ho Hm H. unfold chat_one_shot, prepare, get_engine.
  rewrite Ho. cbn [bind]. rewrite Hm.
  destruct H as [[H1 H2]|[H1 H2]].
  - now rewrite H1, H2.
  - rewrite H1, H2.
    destruct (match ck_prompt kw with Some p => Some p | None => prompt e end);
      reflexivity.
Qed.

Lemma fold_finish_filled tasks order : forall slots i r,
  nth_error (fold_left (finish tasks) order slots) i = Some (Some r) ->
  nth_error slots i = Some (Some r) \/ In i order.
Proof.
  induction order as [|k order IH]; intros slots i r H; [now left|].
  cbn [fold_left] in H. destruct (IH _ _ _ H) as [Hk|Hin]; [|right; now right].
  destruct (Nat.eq_dec k i) as [->|Hne]; [right; now left|].
  left. unfold finish in Hk.
  destruct (nth_error tasks k) as [[rk|]|]; trivial.
  now rewrite nth_error_list_set_other in Hk.
Qed.

(** [gather] has returned: every task has finished. *)
Lemma gather_waits_for_all tasks order results :
  gather tasks order = Some results ->
  forall i, i < length tasks -> In i order.
Proof.
  unfold gather. intros H i Hi. apply all_settled_Some in H.
  assert (Hlen : length results = length tasks).
  { rewrite <- (length_map Some results), <- H, fold_finish_length.
    apply repeat_length. }
  destruct (nth_error results i) as [r|] eqn:E;
    [|apply nth_error_None in E; lia].
  destruct (fold_finish_filled tasks order (repeat None (length tasks)) i r)
    as [Hr|Hin]; trivial.
  - now rewrite H, nth_error_map, E.
  - apply nth_error_In, repeat_spec in Hr. discriminate.
Qed.

(** X11: [arun] on a list waits for everybody.  It returns only after
    every coroutine has finished, and an element whose loop never settles,
    for instance because the endpoint keeps failing, keeps the whole batch
    from returning, whatever the others did. *)
Theorem unsettled_element_blocks_batch json_loads self inputs h :
  (forall order results,
      fst (arun_list json_loads self inputs order h) = Some results ->
      forall i, i < length inputs -> In i order) /\
  (forall i x script,
      nth_error inputs i = Some (x, script) ->
      settle (fst (fst (chat_one_shot json_loads self
                          (user_message_only (input_text x)) script
                          (store_before json_loads self inputs i h)))) = None ->
      forall order, fst (arun_list json_loads self inputs order h) = None).
Proof.
  split.
  - intros order results Hret i Hi. unfold arun_list in Hret.
    pose proof (run_tasks_length json_loads self inputs h) as Hlen.
    destruct (run_tasks json_loads self inputs h) as [tasks h'].
    cbn [fst] in *. apply (gather_waits_for_all tasks order results Hret).
    now rewrite Hlen.
  - intros i x script E Hnone order.
    pose proof (run_tasks_nth json_loads self inputs h i x script E) as Hn.
    rewrite Hnone in Hn. unfold arun_list.
    destruct (run_tasks json_loads self inputs h) as [tasks h'].
    cbn [fst] in *.
    destruct (gather tasks order) as [results|] eqn:Hg; [|reflexivity].
    apply gather_returns_tasks in Hg. subst tasks.
    rewrite nth_error_map in Hn. destruct (nth_error results i); discriminate.
Qed.

Lemma dict_set_fresh {V} (d : dict V) k v :
  ~ In k (dict_keys d) -> dict_set d k v = d ++ [(k, v)].
Proof.
  induction d as [|[k' v'] d IH]; intros H; [reflexivity|].
  cbn [dict_set]. destruct (String.eqb k' k) eqn:E.
  - apply String.eqb_eq in E. subst. exfalso. apply H. now left.
  - cbn [app]. f_equal. apply IH. intros Hin. apply H. now right.
Qed.

Lemma schema_params_spec params : forall properties required,
  NoDup (dict_keys params) ->
  (forall k, In k (dict_keys params) -> ~ In k (dict_keys properties)) ->
  schema_params params properties required =
  (properties
   ++ map (fun p => (fst p, mkProperty (get_or (pi_type (snd p)) "string")
                                       (get_or (pi_description (snd p)) "")))
          params,
   required
   ++ map fst (filter (fun p => get_or (pi_required (snd p)) false) params)).
Proof.
  induction params as [|[param info] params IH]; intros properties required Hnd Hfresh.
  - cbn. now rewrite !app_nil_r.
  - cbn [schema_params]. cbn [dict_keys map fst] in Hnd. inversion Hnd as [|? ? Hnot Hnd']; subst.
    rewrite IH; trivial.
    + rewrite dict_set_fresh by (apply Hfresh; now left).
      cbn [map filter fst snd]. rewrite <- app_assoc. cbn [app]. f_equal.
      destruct (get_or (pi_required info) false); cbn [map fst app].
      * now rewrite <- app_assoc.
      * reflexivity.
    + intros k Hk. rewrite dict_set_fresh by (apply Hfresh; now left).
      unfold dict_keys. rewrite map_app, in_app_iff. cbn [map fst In].
      intros [Hin|[<-|[]]].
      * apply (Hfresh k); [now right | exact Hin].
      * now apply Hnot.
Qed.

(** X13: what the [json_schema] decorator attaches.  The function keeps
    its name and behaviour; the schema carries the function's name and the
    description; every parameter appears once in [properties], in the
    order given, with type ['string'] and an empty description where none
    is stated; [required] lists the parameters marked required, in order,
    and is left out when there is none. *)
Theorem json_schema_shape description params func :
  NoDup (dict_keys params) ->
  fn_name (json_schema description params func) = fn_name func /\
  fn_async (json_schema description params func) = fn_async func /\
  fn_body (json_schema description params func) = fn_body func /\
  fn_schema (json_schema description params func)
  = Some (mkSchema
            (fn_name func) description
            (map (fun p => (fst p, mkProperty (get_or (pi_type (snd p)) "string")
                                              (get_or (pi_description (snd p)) "")))
                 params)
            (match map fst (filter (fun p => get_or (pi_required (snd p)) false) params)
             with
             | [] => None
             | required => Some required
             end)).
Proof.
  intros Hnd. unfold json_schema.
  rewrite (schema_params_spec params [] [] Hnd) by (intros k _ []).
  cbn [app]. repeat split.
  now destruct (map fst (filter _ params)).
Qed.

End RunnerExtras.

(* ================================================================== *)
(** * Further properties of the chunker *)
(* ================================================================== *)

Section ChunkerExtras.
Import Py Chunker.
Local Open Scope string_scope.
Local Open Scope list_scope.

Variable encode_len : string -> nat.
Variable chunk_size : Z.

Local Abbreviation buffer_loop := (buffer_loop encode_len chunk_size).
Local Abbreviation chunk_paragraphs := (chunk_paragraphs encode_len chunk_size).
Local Abbreviation chunk_buffers := (chunk_buffers encode_len chunk_size).
Local Abbreviation sum_tokens := (sum_tokens encode_len).

Lemma join_cons_char sep c p ps :
  join sep (String c p :: ps) = String c (join sep (p :: ps)).
Proof. now destruct ps. Qed.

(** Joining what [split] returned gives the text back. *)
Lemma join_split sep s : join (String sep EmptyString) (split sep s) = s.
Proof.
  induction s as [|c s IH]; [reflexivity|].
  cbn [split]. pose proof (split_not_nil sep s) as Hne.
  destruct (Ascii.eqb c sep) eqn:E.
  - apply Ascii.eqb_eq in E. subst c.
    destruct (split sep s) as [|p ps]; [congruence|].
    change (join (String sep "") ("" :: p :: ps))
      with (String sep (join (String sep "") (p :: ps))).
    now rewrite IH.
  - destruct (split sep s) as [|p ps]; [congruence|].
    now rewrite join_cons_char, IH.
Qed.

Lemma sum_tokens_nonneg ps : (0 <= sum_tokens ps)%Z.
Proof. induction ps as [|p ps IH]; cbn [Chunker.sum_tokens]; lia. Qed.

Lemma sum_tokens_app xs ys : sum_tokens (xs ++ ys) = (sum_tokens xs + sum_tokens ys)%Z.
Proof. induction xs as [|x xs IH]; cbn [app Chunker.sum_tokens]; lia. Qed.

Lemma buffer_loop_all_fit overlap paragraphs : forall emitted temp,
  (sum_tokens temp + sum_tokens paragraphs <= chunk_size)%Z ->
  buffer_loop overlap paragraphs emitted temp = (emitted, temp ++ paragraphs).
Proof.
  induction paragraphs as [|p ps IH]; intros emitted temp H.
  - now rewrite app_nil_r.
  - cbn [Chunker.buffer_loop]. cbn [Chunker.sum_tokens] in H.
    pose proof (sum_tokens_nonneg ps).
    replace (chunk_size <? Z.of_nat (encode_len p) + sum_tokens temp)%Z with false
      by (symmetry; apply Z.ltb_ge; lia).
    rewrite IH.
    + now rewrite <- app_assoc.
    + rewrite sum_tokens_app. cbn [Chunker.sum_tokens]. lia.
Qed.

(** X14: a text whose paragraphs together fit the limit is returned as one
    chunk, the trimmed text itself, whatever the overlap. *)
Theorem fitting_text_is_one_chunk text overlap :
  (sum_tokens (split nl text) <= chunk_size)%Z ->
  chunk_paragraphs text overlap = [strip text].
Proof.
  intros H. rewrite chunk_paragraphs_render. unfold Chunker.chunk_buffers.
  rewrite buffer_loop_all_fit by (cbn [Chunker.sum_tokens]; lia).
  cbn [app]. pose proof (split_not_nil nl text) as Hne.
  destruct (split nl text) as [|p ps] eqn:E; [congruence|].
  cbn [app map]. unfold render. now rewrite <- E, join_split.
Qed.

Lemma retained_is_suffix overlap temp : exists m, retained overlap temp = skipn m temp.
Proof.
  unfold retained, slice_from. destruct (overlap <? _)%Z.
  - eexists. reflexivity.
  - now exists 0.
Qed.

Lemma skipn_snoc {A} a (l : list A) p :
  skipn a l ++ [p] = skipn (Nat.min a (length l)) (l ++ [p]).
Proof.
  destruct (Nat.le_gt_cases a (length l)) as [H|H].
  - rewrite Nat.min_l by assumption. rewrite skipn_app.
    replace (a - length l) with 0 by lia. reflexivity.
  - rewrite Nat.min_r by lia. rewrite skipn_all2 by lia.
    rewrite skipn_app, skipn_all, Nat.sub_diag. reflexivity.
Qed.

Lemma buffer_loop_runs overlap todo : forall done emitted temp,
  (exists i, temp = skipn i done) ->
  Forall (fun b => exists i j, b = skipn i (firstn j (done ++ todo))) emitted ->
  Forall (fun b => exists i j, b = skipn i (firstn j (done ++ todo)))
         (fst (buffer_loop overlap todo emitted temp)) /\
  exists i, snd (buffer_loop overlap todo emitted temp) = skipn i (done ++ todo).
Proof.
  induction todo as [|p rest IH]; intros done emitted temp [i Ht] Hem.
  - cbn [Chunker.buffer_loop fst snd]. split; [exact Hem|].
    exists i. now rewrite app_nil_r.
  - cbn [Chunker.buffer_loop].
    assert (Hassoc : done ++ p :: rest = (done ++ [p]) ++ rest)
      by now rewrite <- app_assoc.
    rewrite Hassoc in *.
    destruct (chunk_size <? _)%Z.
    + apply IH.
      * destruct (retained_is_suffix overlap temp) as [m ->]. subst temp.
        rewrite skipn_skipn. eexists. apply skipn_snoc.
      * apply Forall_app. split; [exact Hem|]. constructor; [|constructor].
        exists i, (length done). subst temp.
        now rewrite <- app_assoc, firstn_app, Nat.sub_diag, firstn_all, app_nil_r.
    + apply IH; [|exact Hem]. subst temp. eexists. apply skipn_snoc.
Qed.

(** X15: paragraphs are never split, reordered or skipped inside a chunk:
    every chunk is the trimmed join of a run of consecutive whole
    paragraphs of the text, for every limit and every overlap. *)
Theorem chunks_are_runs_of_paragraphs text overlap :
  Forall (fun chunk =>
            exists i j, chunk = render (skipn i (firstn j (split nl text))))
         (chunk_paragraphs text overlap).
Proof.
  assert (Hruns : Forall (fun b => exists i j, b = skipn i (firstn j (split nl text)))
                         (chunk_buffers text overlap)).
  { unfold Chunker.chunk_buffers.
    destruct (buffer_loop_runs overlap (split nl text) [] [] [])
      as [Hem [i Ht]]; [now exists 0 | constructor |].
    cbn [app] in Hem, Ht.
    destruct (buffer_loop overlap (split nl text) [] []) as [emitted temp].
    cbn [fst snd] in Hem, Ht.
    destruct temp as [|t temp]; [exact Hem|].
    apply Forall_app. split; [exact Hem|]. constructor; [|constructor].
    exists i, (length (split nl text)). now rewrite firstn_all, Ht. }
  rewrite chunk_paragraphs_render. apply Forall_map.
  eapply Forall_impl; [|exact Hruns]. intros b (i & j & ->). now exists i, j.
Qed.

Lemma buffer_loop_covers overlap todo : forall emitted temp p,
  In p todo \/ In p temp \/ (exists b, In b emitted /\ In p b) ->
  In p (snd (buffer_loop overlap todo emitted temp)) \/
  exists b, In b (fst (buffer_loop overlap todo emitted temp)) /\ In p b.
Proof.
  induction todo as [|q rest IH]; intros emitted temp p H.
  - cbn [Chunker.buffer_loop fst snd]. destruct H as [[]|[H|H]]; [now left | now right].
  - cbn [Chunker.buffer_loop]. destruct (chunk_size <? _)%Z; apply IH.
    + destruct H as [[<-|H]|[H|(b & Hb & Hp)]].
      * right; left. apply in_or_app. right. now left.
      * now left.
      * right; right. exists temp. split; [|exact H]. apply in_or_app. right. now left.
      * right; right. exists b. split; [|exact Hp]. apply in_or_app. now left.
    + destruct H as [[<-|H]|[H|H]].
      * right; left. apply in_or_app. right. now left.
      * now left.
      * right; left. apply in_or_app. now left.
      * right; now right.
Qed.

(** X16: no paragraph is lost: every paragraph of the text is among the
    paragraphs of some chunk, for every limit and every overlap, also a
    negative one. *)
Theorem every_paragraph_is_chunked text overlap p :
  In p (split nl text) ->
  exists b, In b (chunk_buffers text overlap) /\ In p b /\
            In (render b) (chunk_paragraphs text overlap).
Proof.
  intros Hp.
  assert (H : exists b, In b (chunk_buffers text overlap) /\ In p b).
  { unfold Chunker.chunk_buffers.
    pose proof (buffer_loop_covers overlap (split nl text) [] [] p (or_introl Hp)) as H.
    destruct (buffer_loop overlap (split nl text) [] []) as [emitted temp].
    cbn [fst snd] in H. destruct H as [H|(b & Hb & Hpb)].
    - destruct temp as [|t temp]; [contradiction|].
      exists (t :: temp). split; [|exact H]. apply in_or_app. right. now left.
    - exists b. split; [|exact Hpb].
      destruct temp; [exact Hb|]. apply in_or_app. now left. }
  destruct H as (b & Hb & Hpb). exists b. repeat split; trivial.
  rewrite chunk_paragraphs_render. now apply in_map.
Qed.

Lemma buffer_loop_count overlap todo : forall emitted temp,
  length (fst (buffer_loop overlap todo emitted temp)) <= length emitted + length todo.
Proof.
  induction todo as [|p rest IH]; intros emitted temp.
  - cbn. lia.
  - cbn [Chunker.buffer_loop length]. destruct (chunk_size <? _)%Z.
    + etransitivity; [apply IH|]. rewrite length_app. cbn. lia.
    + etransitivity; [apply IH|]. lia.
Qed.

(** X17: the number of chunks, hence of requests made for a text, is at
    most the number of paragraphs plus one, and at most the number of
    paragraphs when the first paragraph fits the limit. *)
Theorem chunk_count_bound text overlap :
  length (chunk_paragraphs text overlap) <= length (split nl text) + 1 /\
  ((Z.of_nat (encode_len (hd EmptyString (split nl text))) <= chunk_size)%Z ->
   length (chunk_paragraphs text overlap) <= length (split nl text)).
Proof.
  rewrite chunk_paragraphs_render, length_map. unfold Chunker.chunk_buffers. split.
  - pose proof (buffer_loop_count overlap (split nl text) [] []) as H.
    destruct (buffer_loop overlap (split nl text) [] []) as [emitted temp].
    cbn [fst length] in H. destruct temp; [lia|]. rewrite length_app. cbn. lia.
  - intros Hfit. destruct (split nl text) as [|p ps]; [cbn; lia|].
    cbn [hd] in Hfit. cbn [Chunker.buffer_loop Chunker.sum_tokens].
    replace (chunk_size <? Z.of_nat (encode_len p) + 0)%Z with false
      by (symmetry; apply Z.ltb_ge; lia).
    pose proof (buffer_loop_count overlap ps [] ([] ++ [p])) as H.
    destruct (buffer_loop overlap ps [] ([] ++ [p])) as [emitted temp].
    cbn [fst length] in *. destruct temp; [lia|]. rewrite length_app. cbn. lia.
Qed.

Lemma buffer_loop_keeps_all overlap bound todo : forall done emitted,
  (forall t, length t <= bound -> retained overlap t = t) ->
  length (done ++ todo) <= bound ->
  Forall (fun b => exists j, b = firstn j (done ++ todo)) emitted ->
  Forall (fun b => exists j, b = firstn j (done ++ todo))
         (fst (buffer_loop overlap todo emitted done)) /\
  snd (buffer_loop overlap todo emitted done) = done ++ todo.
Proof.
  induction todo as [|p rest IH]; intros done emitted Hkeep Hlen Hem.
  - cbn [Chunker.buffer_loop fst snd]. rewrite app_nil_r in *. now split.
  - cbn [Chunker.buffer_loop].
    assert (Hassoc : done ++ p :: rest = (done ++ [p]) ++ rest)
      by now rewrite <- app_assoc.
    rewrite Hassoc in *.
    destruct (chunk_size <? _)%Z.
    + rewrite Hkeep by (rewrite !length_app in Hlen; lia).
      apply IH; trivial.
      apply Forall_app. split; [exact Hem|]. constructor; [|constructor].
      exists (length done).
      now rewrite <- app_assoc, firstn_app, Nat.sub_diag, firstn_all, app_nil_r.
    + now apply IH.
Qed.

(** X18: with overlap [0], and with an overlap of at least the number of
    paragraphs, nothing is ever dropped from the running buffer: every
    chunk is the trimmed join of a prefix of the text's paragraphs, and the
    last chunk is the whole trimmed text, whatever the limit. *)
Theorem chunks_are_prefixes_without_dropping text overlap :
  overlap = 0%Z \/ (Z.of_nat (length (split nl text)) <= overlap)%Z ->
  Forall (fun chunk => exists j, chunk = render (firstn j (split nl text)))
         (chunk_paragraphs text overlap) /\
  last (chunk_paragraphs text overlap) EmptyString = strip text.
Proof.
  intros Hk. rewrite chunk_paragraphs_render. unfold Chunker.chunk_buffers.
  assert (Hkeep : forall t, length t <= length (split nl text) ->
                            retained overlap t = t).
  { intros t Ht. destruct Hk as [->|Hk]; [apply retained_zero|].
    unfold retained.
    replace (overlap <? Z.of_nat (length t))%Z with false
      by (symmetry; apply Z.ltb_ge; lia).
    reflexivity. }
  destruct (buffer_loop_keeps_all overlap (length (split nl text))
              (split nl text) [] [] Hkeep (le_n _) (Forall_nil _)) as [Hem Ht].
  cbn [app] in Hem, Ht.
  pose proof (split_not_nil nl text) as Hne.
  destruct (buffer_loop overlap (split nl text) [] []) as [emitted temp].
  cbn [fst snd] in Hem, Ht. subst temp.
  destruct (split nl text) as [|p ps] eqn:E; [congruence|]. rewrite <- E in *.
  split.
  - apply Forall_map, Forall_app. split.
    + eapply Forall_impl; [|exact Hem]. intros b [j ->]. now exists j.
    + constructor; [|constructor].
      exists (length (split nl text)). now rewrite firstn_all.
  - rewrite map_app. cbn [map]. rewrite last_last. unfold render.
    now rewrite join_split.
Qed.

End ChunkerExtras.

(* ================================================================== *)
(** * Properties of the feed processor *)
(* ================================================================== *)

Section ImporterFacts.
Import Py Chunker Engine Importer.
Local Open Scope string_scope.
Local Open Scope list_scope.

Lemma string_app_assoc (a b c : string) : ((a ++ b) ++ c = a ++ (b ++ c))%string.
Proof. induction a as [|x a IH]; cbn [String.append]; [reflexivity | now rewrite IH]. Qed.

Lemma join_snoc sep g p :
  g <> [] -> join sep (g ++ [p]) = (join sep g ++ sep ++ p)%string.
Proof.
  induction g as [|x g IH]; [congruence|]. intros _.
  destruct g as [|y g]; [reflexivity|].
  change (join sep ((x :: y :: g) ++ [p]))
    with (x ++ sep ++ join sep ((y :: g) ++ [p]))%string.
  rewrite IH by discriminate.
  change (join sep (x :: y :: g)) with (x ++ sep ++ join sep (y :: g))%string.
  now rewrite !string_app_assoc.
Qed.

(** Trimming the running buffer gives the rendering of its paragraphs. *)
Lemma buffer_of_strip group temp :
  buffer_of group temp -> strip temp = render group.
Proof.
  intros [[-> ->]|[_ [->| ->]]]; reflexivity.
Qed.

Lemma buffer_of_snoc group temp p :
  buffer_of group temp ->
  buffer_of (group ++ [p]) (temp ++ String nl EmptyString ++ p).
Proof.
  intros H. right. split; [intros E; apply app_eq_nil in E as [_ E]; discriminate|].
  destruct H as [[-> ->]|[Hne [->| ->]]].
  - right. reflexivity.
  - left. now rewrite join_snoc.
  - right. rewrite join_snoc by assumption. reflexivity.
Qed.

Section WithTokenizer.
Variable encode_len : string -> nat.

Lemma ner_loop_groups token_limit paragraphs : forall groups group temp,
  buffer_of group temp ->
  ner_loop encode_len token_limit paragraphs (map render groups) temp
  = (map render (fst (fst (ner_group_loop encode_len token_limit paragraphs
                                          groups group temp))),
     snd (ner_group_loop encode_len token_limit paragraphs groups group temp)) /\
  buffer_of (snd (fst (ner_group_loop encode_len token_limit paragraphs
                                      groups group temp)))
            (snd (ner_group_loop encode_len token_limit paragraphs groups group temp)) /\
  concat (fst (fst (ner_group_loop encode_len token_limit paragraphs
                                   groups group temp)))
  ++ snd (fst (ner_group_loop encode_len token_limit paragraphs groups group temp))
  = concat groups ++ group ++ paragraphs.
Proof.
  induction paragraphs as [|p rest IH]; intros groups group temp Hb.
  - cbn [ner_loop ner_group_loop fst snd]. now rewrite app_nil_r.
  - cbn [ner_loop ner_group_loop]. destruct (token_limit <? _)%Z.
    + rewrite (buffer_of_strip group temp Hb).
      change (map render groups ++ [render group]) with
        (map render groups ++ map render [group]).
      rewrite <- map_app.
      destruct (IH (groups ++ [group]) [p] p) as (H1 & H2 & H3).
      { right. split; [discriminate | now left]. }
      rewrite H1, H3, concat_app. cbn [concat]. rewrite app_nil_r, <- app_assoc.
      now repeat split.
    + destruct (IH groups (group ++ [p]) (temp ++ String nl EmptyString ++ p)%string
                   (buffer_of_snoc group temp p Hb)) as (H1 & H2 & H3).
      rewrite H1, H3, <- app_assoc. now repeat split.
Qed.

(** X19: [split_text_for_ner] cuts the paragraphs into consecutive groups
    without overlap: every paragraph goes into exactly one chunk, in order,
    and each chunk is the trimmed newline-join of its group.  There is
    always at least one chunk and at most one more than paragraphs. *)
Theorem split_text_for_ner_partitions paragraphs token_limit :
  concat (ner_groups encode_len paragraphs token_limit) = paragraphs /\
  split_text_for_ner encode_len paragraphs token_limit
  = map render (ner_groups encode_len paragraphs token_limit) /\
  1 <= length (split_text_for_ner encode_len paragraphs token_limit)
    <= length paragraphs + 1.
Proof.
  unfold split_text_for_ner, ner_groups.
  destruct (ner_loop_groups token_limit paragraphs [] [] "")
    as (H1 & H2 & H3); [now left|].
  cbn [map concat app] in H1, H3. rewrite H1.
  assert (Hlen : forall ps groups group temp,
             length (fst (fst (ner_group_loop encode_len token_limit ps
                                              groups group temp)))
             <= length groups + length ps).
  { induction ps as [|q ps IH]; intros groups group temp; [cbn; lia|].
    cbn [ner_group_loop length]. destruct (token_limit <? _)%Z.
    - etransitivity; [apply IH|]. rewrite length_app. cbn. lia.
    - etransitivity; [apply IH|]. lia. }
  specialize (Hlen paragraphs [] [] "").
  destruct (ner_group_loop encode_len token_limit paragraphs [] [] "")
    as [[groups group] temp].
  cbn [fst snd length] in *. repeat split.
  - now rewrite concat_app, <- H3; cbn [concat]; rewrite app_nil_r.
  - rewrite map_app. cbn [map]. now rewrite (buffer_of_strip group temp H2).
  - rewrite length_app. cbn. lia.
  - rewrite length_app, length_map. cbn. lia.
Qed.

End WithTokenizer.

Lemma seen_In unique_names name : seen unique_names name = true <-> In name unique_names.
Proof.
  unfold seen. rewrite existsb_exists. split.
  - intros (x & Hin & Heq). apply String.eqb_eq in Heq. now subst.
  - intros Hin. exists name. split; [exact Hin | apply String.eqb_refl].
Qed.

Lemma unique_loop_spec entities : forall unique_names no_duplicates,
  (forall n, In n unique_names <-> In n (map ne_entity no_duplicates)) ->
  NoDup (map ne_entity no_duplicates) ->
  NoDup (map ne_entity (unique_loop entities unique_names no_duplicates)) /\
  (forall n, In n (map ne_entity (unique_loop entities unique_names no_duplicates))
             <-> In n (map ne_entity no_duplicates) \/ In n (map ne_entity entities)) /\
  (forall d, In d (unique_loop entities unique_names no_duplicates) ->
             In d no_duplicates \/
             (~ In (ne_entity d) (map ne_entity no_duplicates) /\
              find (fun x => String.eqb (ne_entity x) (ne_entity d)) entities = Some d)).
Proof.
  induction entities as [|dict_ rest IH]; intros unique_names no_duplicates Hset Hnd.
  - cbn [unique_loop map In]. repeat split; trivial.
    + now left.
    + intros [H|[]]. exact H.
    + now left.
  - cbn [unique_loop]. destruct (seen unique_names (ne_entity dict_)) eqn:Hseen.
    + apply seen_In, Hset in Hseen.
      destruct (IH unique_names no_duplicates Hset Hnd) as (H1 & H2 & H3).
      split; [exact H1|]. split.
      * intros n. rewrite H2. cbn [map In]. split; [tauto|].
        intros [H|[<-|H]]; tauto.
      * intros d Hd. destruct (H3 d Hd) as [H|[Hnot Hfind]]; [now left|].
        right. split; [exact Hnot|]. cbn [find].
        destruct (String.eqb (ne_entity dict_) (ne_entity d)) eqn:E; [|exact Hfind].
        apply String.eqb_eq in E. rewrite E in Hseen. contradiction.
    + assert (Hnew : ~ In (ne_entity dict_) (map ne_entity no_duplicates)).
      { intros Hin. apply Hset, seen_In in Hin. congruence. }
      destruct (IH (ne_entity dict_ :: unique_names) (no_duplicates ++ [dict_]))
        as (H1 & H2 & H3).
      * intros n. rewrite map_app, in_app_iff. cbn [map In]. rewrite Hset. tauto.
      * rewrite map_app. cbn [map]. apply NoDup_app; trivial.
        -- constructor; [intros [] | constructor].
        -- intros a Ha [<-|[]]. contradiction.
      * split; [exact H1|]. split.
        -- intros n. rewrite H2, map_app, in_app_iff. cbn [map In]. tauto.
        -- intros d Hd. destruct (H3 d Hd) as [H|[Hnot Hfind]].
           ++ apply in_app_or in H as [H|[<-|[]]]; [now left|].
              right. split; [exact Hnew|]. cbn [find]. now rewrite String.eqb_refl.
           ++ right. rewrite map_app, in_app_iff in Hnot. cbn [map In] in Hnot.
              split; [tauto|]. cbn [find].
              destruct (String.eqb (ne_entity dict_) (ne_entity d)) eqn:E; [|exact Hfind].
              apply String.eqb_eq in E. tauto.
Qed.

(** X20: the entity filter of [perform_ner].  No name occurs twice in
    the result; the names in the result are exactly the names in the
    input; and the entity kept for a name is the first one of the input
    with that name, so the type of a later homonym is dropped. *)
Theorem unique_entities_keeps_first entities :
  NoDup (map ne_entity (unique_entities entities)) /\
  (forall n, In n (map ne_entity (unique_entities entities))
             <-> In n (map ne_entity entities)) /\
  (forall d, In d (unique_entities entities) ->
             find (fun x => String.eqb (ne_entity x) (ne_entity d)) entities = Some d).
Proof.
  unfold unique_entities.
  destruct (unique_loop_spec entities [] []) as (H1 & H2 & H3);
    [reflexivity | constructor |].
  split; [exact H1|]. split.
  - intros n. rewrite H2. cbn [map In]. tauto.
  - intros d Hd. destruct (H3 d Hd) as [[]|[_ H]]. exact H.
Qed.

Lemma feed_chat_loop_retries errs : forall delay requests response m more content rest,
  Forall (fun e => is_openai_error e = true) errs ->
  choices response = m :: more ->
  rm_content m = Some content ->
  feed_chat_loop (map Fails errs ++ Responds response :: rest) delay requests
  = (FeedReturned (strip content) (completion_tokens response),
     (delay * 2 ^ Z.of_nat (length errs))%Z, S (length errs + requests)).
Proof.
  induction errs as [|e errs IH]; intros delay requests response m more content rest
                                        Herrs Hc Hcont.
  - cbn [map app feed_chat_loop feed_attempt length]. rewrite Hc, Hcont.
    cbn [Z.of_nat]. rewrite Z.pow_0_r. do 2 f_equal. lia.
  - inversion Herrs as [|? ? He Herrs']; subst.
    cbn [map app feed_chat_loop feed_attempt length]. rewrite He.
    rewrite (IH _ _ response m more content rest Herrs' Hc Hcont).
    rewrite Nat2Z.inj_succ, Z.pow_succ_r by lia. do 2 f_equal; lia.
Qed.

Lemma feed_chat_loop_raises script : forall delay requests e,
  fst (fst (feed_chat_loop script delay requests)) = FeedRaised e ->
  is_openai_error e = false.
Proof.
  induction script as [|ev rest IH]; intros delay requests e; [discriminate|].
  cbn [feed_chat_loop]. destruct (feed_attempt ev) as [[content tokens]|e'].
  - discriminate.
  - destruct (is_openai_error e') eqn:E; [apply IH|].
    cbn [fst]. now intros [= <-].
Qed.

(** X21: [FeedProcessor._chat_one_shot] has no clause for invalid requests.
    Every provider error, an invalid-request error included, is retried at
    once, and the first well-formed response is returned with its trimmed
    content and completion tokens; no run ever raises a provider error. *)
Theorem feed_loop_retries_every_provider_error :
  (forall errs response m more content rest,
      Forall (fun e => is_openai_error e = true) errs ->
      choices response = m :: more ->
      rm_content m = Some content ->
      feed_chat_one_shot (map Fails errs ++ Responds response :: rest)
      = (FeedReturned (strip content) (completion_tokens response),
         (2 ^ Z.of_nat (length errs))%Z, S (length errs))) /\
  (forall msg script,
      fst (fst (feed_chat_one_shot script)) <> FeedRaised (InvalidRequestError msg)) /\
  (forall script e,
      fst (fst (feed_chat_one_shot script)) = FeedRaised e ->
      is_openai_error e = false).
Proof.
  split; [|split].
  - intros errs response m more content rest Herrs Hc Hcont.
    unfold feed_chat_one_shot.
    rewrite (feed_chat_loop_retries errs 1 0 response m more content rest Herrs Hc Hcont).
    do 2 f_equal; lia.
  - intros msg script H. apply feed_chat_loop_raises in H. discriminate.
  - intros script e. apply feed_chat_loop_raises.
Qed.

End ImporterFacts.

(* ================================================================== *)
(** * Construction, sharing and failing tool calls *)
(* ================================================================== *)

Section ConstructionExtras.
Import Py Engine Samples MoreSamples.
Local Open Scope string_scope.
Local Open Scope list_scope.

(** [__init__] over a dict of the caller, spelled out. *)
Lemma init_with_tools methods kw h d tools :
  kw_tools kw = Some d ->
  get_dict h d = Some tools ->
  (0 <= get_or (kw_concurrency_limit kw) 3)%Z ->
  init methods kw h
  = Return (length (objects h),
            mkHeap (list_set (dicts h) d (dict_set tools "self" (length (objects h))))
                   (objects h
                    ++ [EngineObj
                          (mkEngine (get_or (kw_model_name kw) "gpt-3.5-turbo-16k")
                                    (get_or (kw_temperature kw) (QArith_base.Qmake 1 2))
                                    (get_or (kw_max_delay kw) 10%Z)
                                    (get_or (kw_concurrency_limit kw) 3%Z)
                                    d (kw_prompt kw) None)
                          methods])
                   (others h)).
Proof.
  intros Hkw Hd Hlimit. unfold init. rewrite Hkw.
  replace (get_or (kw_concurrency_limit kw) 3 <? 0)%Z with false
    by (symmetry; apply Z.ltb_ge; lia).
  unfold alloc_object, get_dict, set_dict in *. cbn [dicts objects]. now rewrite Hd.
Qed.

(** X22: two engines built over the same [tools] dict share it, and the
    second construction takes the key ['self'] over: afterwards the tool
    chest of the first engine maps ['self'] to the second engine, so the
    first engine is no longer registered under its own name. *)
Theorem shared_tools_last_engine_wins methods1 kw1 methods2 kw2 h d tools :
  kw_tools kw1 = Some d ->
  kw_tools kw2 = Some d ->
  get_dict h d = Some tools ->
  (0 <= get_or (kw_concurrency_limit kw1) 3)%Z ->
  (0 <= get_or (kw_concurrency_limit kw2) 3)%Z ->
  let first := length (objects h) in
  let second := S (length (objects h)) in
  exists h1 h2 e1 chest,
    init methods1 kw1 h = Return (first, h1) /\
    init methods2 kw2 h1 = Return (second, h2) /\
    get_object h2 first = Some (EngineObj e1 methods1) /\
    tool_chest e1 = d /\
    get_dict h2 d = Some chest /\
    dict_get chest "self" = Some second /\
    ~ registered first h2.
Proof.
  intros Hk1 Hk2 Hd Hl1 Hl2 first second.
  assert (Hdlt : d < length (dicts h))
    by (apply nth_error_Some; unfold get_dict in Hd; congruence).
  pose proof (init_with_tools methods1 kw1 h d tools Hk1 Hd Hl1) as H1.
  set (h1 := mkHeap _ _ _) in H1.
  assert (Hd1 : get_dict h1 d = Some (dict_set tools "self" first)).
  { unfold get_dict, h1. cbn [dicts]. now apply nth_error_list_set_same. }
  pose proof (init_with_tools methods2 kw2 h1 d _ Hk2 Hd1 Hl2) as H2.
  assert (Hobjs : length (objects h1) = second).
  { unfold h1. cbn [objects]. rewrite length_app. cbn. unfold second. lia. }
  rewrite Hobjs in H2. set (h2 := mkHeap _ _ _) in H2.
  assert (Ho : get_object h2 first
               = Some (EngineObj
                         (mkEngine (get_or (kw_model_name kw1) "gpt-3.5-turbo-16k")
                                   (get_or (kw_temperature kw1) (QArith_base.Qmake 1 2))
                                   (get_or (kw_max_delay kw1) 10%Z)
                                   (get_or (kw_concurrency_limit kw1) 3%Z)
                                   d (kw_prompt kw1) None)
                         methods1)).
  { unfold get_object, h2, h1. cbn [objects].
    rewrite nth_error_app1 by (rewrite length_app; cbn; unfold first; lia).
    rewrite nth_error_app2 by (unfold first; lia).
    unfold first. now rewrite Nat.sub_diag. }
  assert (Hd2 : get_dict h2 d
                = Some (dict_set (dict_set tools "self" first) "self" second)).
  { unfold get_dict, h2. cbn [dicts]. apply nth_error_list_set_same.
    unfold h1. cbn [dicts]. now rewrite list_set_length. }
  eexists h1, h2, _, _. repeat split; try eassumption; try reflexivity.
  - apply dict_get_set_same.
  - intros (e & ms & chest & Ho' & Hd' & Hself).
    rewrite Ho in Ho'. injection Ho' as <- <-. cbn [tool_chest] in Hd'.
    rewrite Hd2 in Hd'. injection Hd' as <-.
    rewrite dict_get_set_same in Hself. injection Hself as Hself.
    unfold second, first in Hself. lia.
Qed.

(** X23: an engine built without [tools] gets a new dict of its own that
    holds the engine under ['self'] and nothing else; no dict that existed
    before is touched, so engines built this way share nothing. *)
Theorem default_tools_are_fresh methods kw h :
  kw_tools kw = None ->
  (0 <= get_or (kw_concurrency_limit kw) 3)%Z ->
  let self := length (objects h) in
  exists h' e,
    init methods kw h = Return (self, h') /\
    get_object h' self = Some (EngineObj e methods) /\
    tool_chest e = length (dicts h) /\
    get_dict h' (tool_chest e) = Some [("self", self)] /\
    (forall d, d < length (dicts h) -> get_dict h' d = get_dict h d) /\
    registered self h'.
Proof.
  intros Hkw Hlimit self.
  set (e := mkEngine (get_or (kw_model_name kw) "gpt-3.5-turbo-16k")
                     (get_or (kw_temperature kw) (QArith_base.Qmake 1 2))
                     (get_or (kw_max_delay kw) 10%Z)
                     (get_or (kw_concurrency_limit kw) 3%Z)
                     (length (dicts h)) (kw_prompt kw) None).
  set (h' := mkHeap (list_set (dicts h ++ [[]]) (length (dicts h)) [("self", self)])
                    (objects h ++ [EngineObj e methods]) (others h)).
  assert (Hinit : init methods kw h = Return (self, h')).
  { unfold init. rewrite Hkw.
    replace (get_or (kw_concurrency_limit kw) 3 <? 0)%Z with false
      by (symmetry; apply Z.ltb_ge; lia).
    unfold alloc_dict, alloc_object, get_dict, set_dict. cbn [dicts objects].
    rewrite nth_error_app2, Nat.sub_diag by lia. reflexivity. }
  assert (Ho : get_object h' self = Some (EngineObj e methods)).
  { unfold get_object, h'. cbn [objects].
    rewrite nth_error_app2 by (unfold self; lia).
    unfold self. now rewrite Nat.sub_diag. }
  assert (Hd : get_dict h' (length (dicts h)) = Some [("self", self)]).
  { unfold get_dict, h'. cbn [dicts]. apply nth_error_list_set_same.
    rewrite length_app. cbn. lia. }
  exists h', e. repeat split; trivial.
  - intros d Hlt. unfold get_dict, h'. cbn [dicts].
    rewrite nth_error_list_set_other by lia. now apply nth_error_app1.
  - exists e, methods, [("self", self)]. repeat split; trivial.
Qed.

(** X24: a tool call that cannot be served ends the run.  When the
    arguments do not decode, or the call fails with anything but a provider
    error (unknown owner, unknown method, a failing capability), the loop
    raises that exception at once: no message is appended, nothing is
    slept, and the rest of the endpoint's answers is never asked for. *)
Theorem failed_tool_call_ends_run
        json_loads self h opts_model opts_temperature opts_functions limit
        r m more fc e rest st :
  choices r = m :: more ->
  rm_function_call m = Some fc ->
  is_openai_error e = false ->
  (json_loads (fc_arguments fc) = Raise e ->
   chat_loop json_loads self h opts_model opts_temperature opts_functions limit
             (Responds r :: rest) st
   = (Raised e, send opts_model opts_temperature opts_functions st)) /\
  (forall function_args calls,
      json_loads (fc_arguments fc) = Return function_args ->
      call_function self h (fc_name fc) function_args = (calls, Raise e) ->
      exists st',
        chat_loop json_loads self h opts_model opts_temperature opts_functions limit
                  (Responds r :: rest) st
        = (Raised e, st') /\
        messages st' = messages st /\ slept st' = slept st /\
        invoked st' = invoked st ++ calls /\
        length (sent st') = S (length (sent st))).
Proof.
  intros Hc Hf He.
  assert (Hi : is_invalid_request e = false) by (destruct e; trivial; discriminate).
  split.
  - intros Hj. cbn [chat_loop attempt]. rewrite Hc, Hf, Hj, Hi, He. reflexivity.
  - intros function_args calls Hj Hcall. eexists. split.
    + cbn [chat_loop attempt]. rewrite Hc, Hf, Hj, Hcall, Hi, He. reflexivity.
    + cbn [messages slept invoked sent send]. repeat split.
      rewrite length_app. cbn. lia.
Qed.

End ConstructionExtras.

(* ================================================================== *)
(** * Worked examples for the further properties *)
(* ================================================================== *)

Section MoreExamples.
Import Py Chunker Engine Samples Importer MoreSamples.
Local Open Scope string_scope.
Local Open Scope list_scope.

Lemma functions_publishes_exactly_witness :
  exists found h',
    functions 1 engine_store = Return (found, h') /\
    forall s,
      In s found <->
      exists owner o name f sc,
        dict_get [("kb", 0); ("self", 1)] owner = Some o /\
        In (name, f) (members engine_store o) /\
        fn_schema f = Some sc /\
        s = mkSchema (owner ++ String dash (s_name sc)) (s_description sc)
                     (s_properties sc) (s_required sc).
Proof.
  exact (functions_publishes_exactly 1 engine_store the_engine [("recap", recap)]
                                     [("kb", 0); ("self", 1)]
                                     eq_refl eq_refl eq_refl).
Defined.

Lemma functions_is_memoized_witness :
  functions 1 engine_store = Return (fst published, snd published) /\
  functions 1 (snd published) = Return (fst published, snd published).
Proof.
  split; [reflexivity|].
  exact (functions_is_memoized 1 engine_store (fst published) (snd published)
                               eq_refl (snd published) eq_refl).
Defined.

Lemma dashed_owner_is_published_not_callable_witness :
  call_function 1 dashed_engine_store "my-kb-lookup" (JObj [])
  = ([], Raise (ValueError "wrong number of values to unpack")).
Proof.
  exact (proj2 (dashed_owner_is_published_not_callable
                  1 dashed_engine_store the_engine [] [("my-kb", 0); ("self", 1)]
                  "my-kb" 0 "lookup" lookup lookup_schema
                  eq_refl eq_refl eq_refl eq_refl eq_refl eq_refl eq_refl eq_refl)
               dashed_engine_store (JObj [])).
Defined.

Lemma call_function_resolution_errors_witness :
  call_function 1 attributed_engine_store "db" JNull
    = ([], Raise (ValueError "wrong number of values to unpack")) /\
  call_function 1 attributed_engine_store "db-lookup" JNull
    = ([], Raise (KeyError "db")) /\
  call_function 1 attributed_engine_store "kb-search" JNull
    = ([], Raise (AttributeError "search")) /\
  call_function 1 attributed_engine_store "kb-lookup" JNull
    = ([], Raise (TypeError "argument after ** must be a mapping")) /\
  call_function 1 attributed_engine_store "kb-version" (JObj [])
    = ([], Raise (TypeError "object is not callable")) /\
  call_function 1 attributed_engine_store "kb-describe" (JObj [])
    = ([mkInvocation "kb" "describe" []], Return "a knowledge base") /\
  call_function 1 attributed_engine_store "self-model_name" (JObj [])
    = ([], Raise (TypeError "object is not callable")).
Proof.
  pose (errors := fun owner name function_args =>
          call_function_resolution_errors
            1 attributed_engine_store the_engine [("recap", recap)]
            [("kb", 0); ("self", 1)] owner name function_args eq_refl eq_refl).
  split; [|split; [|split; [|split; [|split; [|split]]]]].
  - exact (proj1 (errors "db" "lookup" JNull eq_refl eq_refl)).
  - exact (proj1 (proj2 (errors "db" "lookup" JNull eq_refl eq_refl)) eq_refl).
  - exact (proj1 (proj2 (proj2 (errors "kb" "search" JNull eq_refl eq_refl)))
                 0 eq_refl eq_refl).
  - refine (proj1 (proj2 (proj2 (proj2 (errors "kb" "lookup" JNull eq_refl eq_refl))))
                  0 (Callable lookup) eq_refl eq_refl _).
    intros kwargs H. discriminate H.
  - exact (proj1 (proj2 (proj2 (proj2 (proj2
                   (errors "kb" "version" (JObj []) eq_refl eq_refl)))))
                 0 [] eq_refl eq_refl eq_refl).
  - exact (proj1 (proj2 (proj2 (proj2 (proj2 (proj2
                   (errors "kb" "describe" (JObj []) eq_refl eq_refl))))))
                 0 describe [] eq_refl eq_refl eq_refl).
  - exact (proj1 (proj2 (proj2 (proj2 (proj2
                   (errors "self" "model_name" (JObj []) eq_refl eq_refl)))))
                 1 [] eq_refl
                 (proj2 (proj2 (proj2 (proj2 (proj2 (proj2
                    (errors "self" "model_name" (JObj []) eq_refl eq_refl))))))
                    (or_introl eq_refl) eq_refl)
                 eq_refl).
Defined.

Lemma conversation_grows_by_tool_rounds_witness :
  messages (snd throttled_run) = conversation.
Proof.
  refine (proj1 (proj2 (conversation_grows_by_tool_rounds
                          loads_empty_object 1 throttled_engine_store "gpt-4"
                          (QArith_base.Qmake 0 1) None 10
                          [Responds tool_call; Responds answer]
                          (initial_state conversation))) _).
  intros ev [<-|[<-|[]]]; reflexivity.
Defined.

Lemma returned_from_content_response_witness :
  exists response m more content,
    In (Responds response) [Responds tool_call; Responds answer] /\
    choices response = m :: more /\
    rm_function_call m = None /\
    rm_content m = Some content /\
    mkChatResponse "The answer is forty-two." 9
    = mkChatResponse (strip content) (completion_tokens response).
Proof.
  exact (returned_from_content_response
           loads_empty_object 1 engine_store "gpt-4" (QArith_base.Qmake 0 1) None 10
           [Responds tool_call; Responds answer] (initial_state conversation)
           (mkChatResponse "The answer is forty-two." 9) eq_refl).
Defined.

Lemma transient_failure_is_transparent_witness :
  fst (sample_loop engine_store [Responds tool_call; rate_limited; Responds answer]
                   (initial_state conversation))
  = fst (sample_loop engine_store [Responds tool_call; Responds answer]
                     (initial_state conversation)).
Proof.
  exact (proj1 (transient_failure_is_transparent
                  loads_empty_object 1 engine_store "gpt-4" (QArith_base.Qmake 0 1)
                  None 10 [Responds tool_call] (OpenAIError "rate limit")
                  [Responds answer] (initial_state conversation) eq_refl eq_refl)).
Defined.

Lemma chat_one_shot_rejects_incomplete_input_witness :
  chat_one_shot loads_empty_object 1 (user_message_only "hi") [Responds answer]
                promptless_store
  = (Raised (ValueError
               "You must provide a user_message, message, or additional_messages"),
     initial_state [], promptless_store).
Proof.
  exact (chat_one_shot_rejects_incomplete_input
           loads_empty_object 1 promptless_store
           (mkEngine "gpt-3.5-turbo-16k" (QArith_base.Qmake 1 2) 10 3 0 None None)
           [] (user_message_only "hi") [Responds answer]
           eq_refl eq_refl (or_introl (conj eq_refl eq_refl))).
Defined.

Lemma unsettled_element_blocks_batch_witness :
  fst (arun_list loads_empty_object 1 stuck_batch [0; 1] engine_store) = None.
Proof.
  exact (proj2 (unsettled_element_blocks_batch loads_empty_object 1 stuck_batch
                                               engine_store)
               1 (Text "second") [rate_limited; rate_limited] eq_refl eq_refl
               [0; 1]).
Defined.

Lemma json_schema_shape_witness :
  fn_schema lookup = Some lookup_schema /\
  fn_body lookup = (fun _ => Return "forty-two").
Proof.
  assert (Hnd : NoDup (dict_keys [("topic", mkParamInfo (Some "string") None (Some true))])).
  { constructor; [intros [] | constructor]. }
  pose (shape := json_schema_shape
                   "Look a fact up"
                   [("topic", mkParamInfo (Some "string") None (Some true))]
                   (mkFunction "lookup" true (fun _ => Return "forty-two") None) Hnd).
  split; [exact (proj2 (proj2 (proj2 shape))) | exact (proj1 (proj2 (proj2 shape)))].
Defined.

Lemma fitting_text_is_one_chunk_witness :
  chunk_paragraphs char_tokens 10 (lines ["a"; "bb"; " "]) 3 = [lines ["a"; "bb"]].
Proof.
  assert (H : (sum_tokens char_tokens (split nl (lines ["a"; "bb"; " "])) <= 10)%Z)
    by (vm_compute; discriminate).
  exact (fitting_text_is_one_chunk char_tokens 10 (lines ["a"; "bb"; " "]) 3 H).
Defined.

Lemma every_paragraph_is_chunked_witness :
  exists b,
    In b (chunk_buffers char_tokens 3 (lines ["a"; "bb"; "cc"]) (-1)) /\
    In "bb" b /\
    In (render b) (chunk_paragraphs char_tokens 3 (lines ["a"; "bb"; "cc"]) (-1)).
Proof.
  assert (H : In "bb" (split nl (lines ["a"; "bb"; "cc"]))) by (right; left; reflexivity).
  exact (every_paragraph_is_chunked char_tokens 3 (lines ["a"; "bb"; "cc"]) (-1) "bb" H).
Defined.

Lemma chunk_count_bound_witness :
  length (chunk_paragraphs char_tokens 3 (lines ["a"; "bb"; "cc"]) 1) <= 3.
Proof.
  assert (H : (Z.of_nat (char_tokens (hd "" (split nl (lines ["a"; "bb"; "cc"])))) <= 3)%Z)
    by (vm_compute; discriminate).
  exact (proj2 (chunk_count_bound char_tokens 3 (lines ["a"; "bb"; "cc"]) 1) H).
Defined.

Lemma chunks_are_prefixes_without_dropping_witness :
  last (chunk_paragraphs char_tokens 1 (lines ["a"; "b"; "c"]) 0) ""
  = lines ["a"; "b"; "c"].
Proof.
  exact (proj2 (chunks_are_prefixes_without_dropping
                  char_tokens 1 (lines ["a"; "b"; "c"]) 0 (or_introl eq_refl))).
Defined.

Lemma feed_loop_retries_every_provider_error_witness :
  feed_chat_one_shot [Fails (InvalidRequestError "bad schema"); rate_limited;
                      Responds answer]
  = (FeedReturned "The answer is forty-two." 9, 4%Z, 3).
Proof.
  assert (Herrs : Forall (fun e => is_openai_error e = true)
                         [InvalidRequestError "bad schema"; OpenAIError "rate limit"]).
  { constructor; [reflexivity|]. constructor; [reflexivity | constructor]. }
  exact (proj1 feed_loop_retries_every_provider_error
               [InvalidRequestError "bad schema"; OpenAIError "rate limit"]
               answer (mkResponseMessage (Some "  The answer is forty-two. ") None)
               [] "  The answer is forty-two. " [] Herrs eq_refl eq_refl).
Defined.

Lemma shared_tools_last_engine_wins_witness :
  exists h1 h2 e1 chest,
    init [("recap", recap)] (with_tools 0) store = Return (1, h1) /\
    init [] (with_tools 0) h1 = Return (2, h2) /\
    get_object h2 1 = Some (EngineObj e1 [("recap", recap)]) /\
    tool_chest e1 = 0 /\
    get_dict h2 0 = Some chest /\
    dict_get chest "self" = Some 2 /\
    ~ registered 1 h2.
Proof.
  assert (Hl : (0 <= get_or (kw_concurrency_limit (with_tools 0%nat)) 3)%Z)
    by (vm_compute; discriminate).
  exact (shared_tools_last_engine_wins
           [("recap", recap)] (with_tools 0) [] (with_tools 0) store 0 [("kb", 0)]
           eq_refl eq_refl eq_refl Hl Hl).
Defined.

Lemma default_tools_are_fresh_witness :
  exists h' e,
    init [] no_kwargs store = Return (1, h') /\
    get_object h' 1 = Some (EngineObj e []) /\
    tool_chest e = 2 /\
    get_dict h' (tool_chest e) = Some [("self", 1)] /\
    (forall d, d < 2 -> get_dict h' d = get_dict store d) /\
    registered 1 h'.
Proof.
  assert (Hl : (0 <= get_or (kw_concurrency_limit no_kwargs) 3)%Z)
    by (vm_compute; discriminate).
  exact (default_tools_are_fresh [] no_kwargs store eq_refl Hl).
Defined.

Lemma failed_tool_call_ends_run_witness :
  sample_loop engine_store [Responds garbled_tool_call; Responds answer]
              (initial_state conversation)
  = (Raised (JSONDecodeError "Expecting value"),
     send "gpt-4" (QArith_base.Qmake 0 1) None (initial_state conversation)).
Proof.
  exact (proj1 (failed_tool_call_ends_run
                  loads_empty_object 1 engine_store "gpt-4" (QArith_base.Qmake 0 1)
                  None 10 garbled_tool_call
                  (mkResponseMessage None (Some (mkFunctionCall "kb-lookup" "{")))
                  [] (mkFunctionCall "kb-lookup" "{")
                  (JSONDecodeError "Expecting value") [Responds answer]
                  (initial_state conversation) eq_refl eq_refl eq_refl)
               eq_refl).
Defined.

End MoreExamples.
